(** * Employee attrition dashboard: the filter-and-aggregate pipeline

    A shallow embedding of [app.py].  The script loads a CSV file into a
    pandas data frame, narrows it with three sidebar selections and hands
    the narrowed frame to twenty views.  The pandas operations the script
    calls ([==], [>=], boolean-mask indexing, [unique], [min], [max],
    [value_counts], [groupby], [unstack], [fillna], [select_dtypes],
    [corr]) are written out here as list functions over the rows of a
    frame.  A numeric cell is a rational number; the comparisons of the
    filter and the bounds of the slider are exact on it, and [corr]
    computes in IEEE 754 binary64 on the floats the cells convert to. *)

From Stdlib Require Import ZArith QArith Lqa Floats.
From stdpp Require Import base gmap strings list.

Open Scope string_scope.

(** ** Cells, rows and frames *)

(** A cell read by [pd.read_csv]: text, a number, or the missing-value
    marker that an empty field becomes. *)
Inductive value :=
| Str (s : string)
| Num (q : Q)
| NaN.

(** The column types that [select_dtypes(include='number')] tells apart. *)
Inductive dtype := object | number.

(** A data frame: the column labels with their types, and the records in
    file order.  A frame with no record still has its columns. *)
Record DataFrame := {
  columns : list (string * dtype);
  rows : list (gmap string value)
}.

(** ** Exceptions *)

Inductive exn :=
| KeyError (c : string)
| AttributeError (c : string)
| TypeError
| ValueError (msg : string)
| StreamlitAPIException
| NameError.

Inductive result (A : Type) :=
| Ok (a : A)
| Raise (e : exn).
Arguments Ok {A} a.
Arguments Raise {A} e.

#[global] Instance result_ret : MRet result := λ A a, Ok a.
#[global] Instance result_bind : MBind result :=
  λ A B f m, match m with Ok a => f a | Raise e => Raise e end.
#[global] Instance result_fmap : FMap result :=
  λ A B f m, match m with Ok a => Ok (f a) | Raise e => Raise e end.

(** ** Reading cells and columns *)

Definition cell (c : string) (r : gmap string value) : value :=
  default NaN (r !! c).

Definition column_names (d : DataFrame) : list string := (columns d).*1.

Definition has_column (d : DataFrame) (c : string) : bool :=
  bool_decide (c ∈ column_names d).

(** The cells of a column, record by record. *)
Definition column (d : DataFrame) (c : string) : list value := cell c <$> rows d.

(** [d[c]]: the cells of column [c], or [KeyError]. *)
Definition getitem (d : DataFrame) (c : string) : result (list value) :=
  if has_column d c then Ok (column d c) else Raise (KeyError c).

(** [d.c]: the same cells, or [AttributeError]. *)
Definition getattr (d : DataFrame) (c : string) : result (list value) :=
  match getitem d c with
  | Ok col => Ok col
  | Raise _ => Raise (AttributeError c)
  end.

(** ** Comparisons *)

(** [a == b] on cells: text with text, number with number; a missing
    value equals nothing, not even itself. *)
Definition py_eq (a b : value) : bool :=
  match a, b with
  | Str s, Str t => bool_decide (s = t)
  | Num p, Num q => Qeq_bool p q
  | _, _ => false
  end.

(** [a != b] *)
Definition py_ne (a b : value) : bool := negb (py_eq a b).

(** [series == v], element by element. *)
Definition eq_scalar (col : list value) (v : value) : list bool :=
  (λ x, py_eq x v) <$> col.

(** [x >= k] and [x <= k] for an integer [k]: a missing value compares
    false, text raises [TypeError]. *)
Definition py_ge (x : value) (k : Z) : result bool :=
  match x with
  | Num q => Ok (Qle_bool (inject_Z k) q)
  | NaN => Ok false
  | Str _ => Raise TypeError
  end.

Definition py_le (x : value) (k : Z) : result bool :=
  match x with
  | Num q => Ok (Qle_bool q (inject_Z k))
  | NaN => Ok false
  | Str _ => Raise TypeError
  end.

Definition ge_scalar (col : list value) (k : Z) : result (list bool) :=
  mapM (λ x, py_ge x k) col.

Definition le_scalar (col : list value) (k : Z) : result (list bool) :=
  mapM (λ x, py_le x k) col.

(** [m1 & m2] *)
Definition mask_and (m1 m2 : list bool) : list bool := zip_with andb m1 m2.

(** [d[mask]]: the records whose mask entry is true, in order; the
    columns stay. *)
Fixpoint keep {A} (mask : list bool) (l : list A) : list A :=
  match mask, l with
  | b :: mask', x :: l' => if b then x :: keep mask' l' else keep mask' l'
  | _, _ => []
  end.

Definition getitem_mask (d : DataFrame) (mask : list bool) : DataFrame :=
  {| columns := columns d; rows := keep mask (rows d) |}.

(** [d.copy()] *)
Definition copy (d : DataFrame) : DataFrame :=
  {| columns := columns d; rows := rows d |}.

(** ** The sidebar (lines 24 to 26) *)

(** The key equality of pandas' hash tables ([unique], [value_counts],
    [groupby]): as [==], except that missing values are one key. *)
Definition same_key (a b : value) : bool :=
  match a, b with
  | NaN, NaN => true
  | _, _ => py_eq a b
  end.

(** [series.unique()]: the distinct cells in order of first appearance. *)
Fixpoint unique_acc (seen : list value) (l : list value) : list value :=
  match l with
  | [] => []
  | x :: l' =>
      if existsb (same_key x) seen then unique_acc seen l'
      else x :: unique_acc (x :: seen) l'
  end.

Definition unique (l : list value) : list value := unique_acc [] l.

(** [["All"] + list(df[c].unique())] *)
Definition selectbox_options (d : DataFrame) (c : string) : result (list value) :=
  col ← getitem d c; mret (Str "All" :: unique col).

(** [series.min()] and [series.max()] on the cells of a numeric column:
    missing values are skipped, and an empty or all-missing series gives
    the missing value.  Text next to numbers or missing values cannot be
    compared and raises [TypeError]; a column of text only, which pandas
    reduces by comparing the strings, is not modelled and raises here
    too. *)
Definition Qmin' (a b : Q) : Q := if Qle_bool a b then a else b.
Definition Qmax' (a b : Q) : Q := if Qle_bool a b then b else a.

Fixpoint reduce (f : Q → Q → Q) (acc : option Q) (l : list value) : result (option Q) :=
  match l with
  | [] => Ok acc
  | Str _ :: _ => Raise TypeError
  | NaN :: l' => reduce f acc l'
  | Num q :: l' => reduce f (Some (from_option (λ a, f a q) q acc)) l'
  end.

Definition series_min (l : list value) : result (option Q) := reduce Qmin' None l.
Definition series_max (l : list value) : result (option Q) := reduce Qmax' None l.

(** [int(x)]: truncation towards zero; [ValueError] on the missing value. *)
Definition int (x : option Q) : result Z :=
  match x with
  | Some q => Ok (Z.quot (Qnum q) (Zpos (Qden q)))
  | None => Raise (ValueError "cannot convert float NaN to integer")
  end.

(** [df.Age.min()] and [df.Age.max()] *)
Definition age_min (d : DataFrame) : result (option Q) := getattr d "Age" ≫= series_min.
Definition age_max (d : DataFrame) : result (option Q) := getattr d "Age" ≫= series_max.

(** The bounds of the age slider of line 26. *)
Definition slider_bounds (d : DataFrame) : result (Z * Z) :=
  lo ← age_min d ≫= int;
  hi ← age_max d ≫= int;
  mret (lo, hi).

(** [st.sidebar.slider(label, min_value, max_value, value)] on integers:
    streamlit widens the bounds until they hold the default range, and
    refuses a bound that JavaScript cannot hold exactly. *)
Definition MAX_SAFE_INTEGER : Z := 2 ^ 53 - 1.
Definition MIN_SAFE_INTEGER : Z := - (2 ^ 53 - 1).

Definition validate_int_bounds (z : Z) : result unit :=
  if (z <? MIN_SAFE_INTEGER)%Z then Raise StreamlitAPIException
  else if (MAX_SAFE_INTEGER <? z)%Z then Raise StreamlitAPIException
  else Ok ().

Definition slider (min_value max_value : Z) (value : Z * Z) : result unit :=
  let min_value := Z.min min_value max_value in
  let max_value := Z.max min_value max_value in
  let min_value := Z.min value.1 min_value in
  let max_value := Z.max value.2 max_value in
  _ ← validate_int_bounds min_value;
  validate_int_bounds max_value.

(** ** The filter block (lines 29 to 34) *)

(** The variables the block reads and writes, each standing for the
    frame it holds.  Every statement of the block rebinds [filtered_df].
    The next section runs the same statements on references into a store
    of frames. *)
Record env := {
  df : DataFrame;
  selected_gender : value;
  selected_department : value;
  selected_age : Z * Z;
  filtered_df : DataFrame
}.

Definition set_filtered_df (e : env) (d : DataFrame) : env :=
  {| df := df e;
     selected_gender := selected_gender e;
     selected_department := selected_department e;
     selected_age := selected_age e;
     filtered_df := d |}.

(** line 29 *)
Definition stmt_copy (e : env) : result env :=
  Ok (set_filtered_df e (copy (df e))).

(** [if sel != "All": filtered_df = filtered_df[filtered_df[c] == sel]] *)
Definition stmt_select (c : string) (sel : value) (e : env) : result env :=
  if py_ne sel (Str "All") then
    col ← getitem (filtered_df e) c;
    mret (set_filtered_df e (getitem_mask (filtered_df e) (eq_scalar col sel)))
  else Ok e.

(** line 34 *)
Definition stmt_age (e : env) : result env :=
  col1 ← getitem (filtered_df e) "Age";
  m1 ← ge_scalar col1 (selected_age e).1;
  col2 ← getitem (filtered_df e) "Age";
  m2 ← le_scalar col2 (selected_age e).2;
  mret (set_filtered_df e (getitem_mask (filtered_df e) (mask_and m1 m2))).

Definition apply_filters (e : env) : result env :=
  e1 ← stmt_copy e;
  e2 ← stmt_select "Gender" (selected_gender e1) e1;
  e3 ← stmt_select "Department" (selected_department e2) e2;
  stmt_age e3.

(** The block as a function of the table and the three selections. *)
Record FilterSpecification := {
  gender : value;
  department : value;
  age_range : Z * Z
}.

Definition applyFilter (table : DataFrame) (spec : FilterSpecification) : result DataFrame :=
  filtered_df <$> apply_filters
    {| df := table;
       selected_gender := gender spec;
       selected_department := department spec;
       selected_age := age_range spec;
       filtered_df := table |}.

(** ** The filter block on objects (lines 29 to 34) *)

(** In Python a frame is an object and a variable holds a reference to
    it.  The store maps references to frames.  [df.copy()] and indexing
    with a mask make a new object, an assignment binds a name to a
    reference, and no statement of pandas that the block uses writes into
    an object it was given.  A name that is not bound cannot be read. *)
Definition ref := positive.
Definition store := gmap ref DataFrame.

(** The names of the script that the block uses. *)
Record scope := {
  var_df : option ref;
  var_selected_gender : value;
  var_selected_department : value;
  var_selected_age : Z * Z;
  var_filtered_df : option ref
}.

(** [filtered_df = ...] *)
Definition assign_filtered_df (s : scope) (r : ref) : scope :=
  {| var_df := var_df s;
     var_selected_gender := var_selected_gender s;
     var_selected_department := var_selected_department s;
     var_selected_age := var_selected_age s;
     var_filtered_df := Some r |}.

(** Statements run on the store, and end with a value or an exception. *)
Definition Run (A : Type) : Type := store → result A * store.

#[global] Instance run_ret : MRet Run := λ A a σ, (Ok a, σ).
#[global] Instance run_bind : MBind Run :=
  λ A B f m σ, match m σ with
               | (Ok a, σ') => f a σ'
               | (Raise e, σ') => (Raise e, σ')
               end.

(** A computation on values, which does not touch the store. *)
Definition pure {A} (r : result A) : Run A := λ σ, (r, σ).

(** Reading a name. *)
Definition load (x : option ref) : Run DataFrame :=
  λ σ, (match x ≫= λ r, σ !! r with
        | Some d => Ok d
        | None => Raise NameError
        end, σ).

(** A new object. *)
Definition new (d : DataFrame) : Run ref :=
  λ σ, let r := fresh (dom σ) in (Ok r, <[r := d]> σ).

(** line 29 *)
Definition run_copy (s : scope) : Run scope :=
  d ← load (var_df s);
  r ← new (copy d);
  mret (assign_filtered_df s r).

(** [if sel != "All": filtered_df = filtered_df[filtered_df[c] == sel]] *)
Definition run_select (c : string) (sel : value) (s : scope) : Run scope :=
  if py_ne sel (Str "All") then
    d ← load (var_filtered_df s);
    d' ← load (var_filtered_df s);
    col ← pure (getitem d' c);
    r ← new (getitem_mask d (eq_scalar col sel));
    mret (assign_filtered_df s r)
  else mret s.

(** line 34 *)
Definition run_age (s : scope) : Run scope :=
  d ← load (var_filtered_df s);
  d1 ← load (var_filtered_df s);
  col1 ← pure (getitem d1 "Age");
  m1 ← pure (ge_scalar col1 (var_selected_age s).1);
  d2 ← load (var_filtered_df s);
  col2 ← pure (getitem d2 "Age");
  m2 ← pure (le_scalar col2 (var_selected_age s).2);
  r ← new (getitem_mask d (mask_and m1 m2));
  mret (assign_filtered_df s r).

Definition run_filters (s : scope) : Run scope :=
  s1 ← run_copy s;
  s2 ← run_select "Gender" (var_selected_gender s1) s1;
  s3 ← run_select "Department" (var_selected_department s2) s2;
  run_age s3.

(** The selections of a scope as a filter specification, and the frame
    that [filtered_df] names at the end of a run, if the run ends
    normally. *)
Definition selections (s : scope) : FilterSpecification :=
  {| gender := var_selected_gender s;
     department := var_selected_department s;
     age_range := var_selected_age s |}.

Definition outcome (out : result scope * store) : result (option DataFrame) :=
  (λ s, var_filtered_df s ≫= λ r, out.2 !! r) <$> out.1.

(** ** Counting (lines 43, 47, 62 and 66) *)

Definition isna (v : value) : bool :=
  match v with NaN => true | _ => false end.

(** One more occurrence of key [k] in a table of counts. *)
Fixpoint bump (k : value) (acc : list (value * nat)) : list (value * nat) :=
  match acc with
  | [] => [(k, 1%nat)]
  | (k', n) :: acc' =>
      if same_key k k' then (k', S n) :: acc' else (k', n) :: bump k acc'
  end.

(** One cell more: missing values are not counted. *)
Definition count_step (acc : list (value * nat)) (v : value) : list (value * nat) :=
  if isna v then acc else bump v acc.

(** The counts of the cells of a series, keys in order of first
    appearance. *)
Definition tally (l : list value) : list (value * nat) := foldl count_step [] l.

(** Insertion sort, stable: an element goes in front of the first one it
    may precede. *)
Fixpoint insert_by {A} (leb : A → A → bool) (x : A) (l : list A) : list A :=
  match l with
  | [] => [x]
  | y :: l' => if leb x y then x :: y :: l' else y :: insert_by leb x l'
  end.

Definition sort_by {A} (leb : A → A → bool) (l : list A) : list A :=
  foldr (insert_by leb) [] l.

(** [series.value_counts()]: the counts by descending count.  Among equal
    counts pandas keeps the order of first appearance up to 16 keys and
    leaves it to the sorting routine beyond; here it is first appearance
    throughout. *)
Definition value_counts (l : list value) : list (value * nat) :=
  sort_by (λ a b, Nat.leb b.2 a.2) (tally l).

(** The order pandas sorts keys in: numbers, then text, then missing. *)
Definition value_leb (a b : value) : bool :=
  match a, b with
  | Num p, Num q => Qle_bool p q
  | Num _, _ => true
  | Str s, Str t => String.leb s t
  | Str _, NaN => true
  | NaN, NaN => true
  | _, _ => false
  end.

(** The keys of a grouping or of an unstacked level: distinct, not
    missing, sorted. *)
Definition sorted_keys (l : list value) : list value :=
  sort_by value_leb (unique (filter (λ v, isna v = false) l)).

(** [d.groupby(g)[c].value_counts()]: for every value of [g], the counts
    of [c] among its records. *)
Definition group_cells (gs cs : list value) (k : value) : list value :=
  (zip gs cs ≫= λ p, if same_key p.1 k then [p.2] else []).

Definition groupby_value_counts (d : DataFrame) (g c : string)
  : result (list (value * list (value * nat))) :=
  gs ← match getitem d g with Ok x => Ok x | Raise _ => Raise (KeyError g) end;
  cs ← match getitem d c with
       | Ok x => Ok x
       | Raise _ => Raise (KeyError ("Column not found: " ++ c))
       end;
  mret ((λ k, (k, value_counts (group_cells gs cs k))) <$> sorted_keys gs).

(** A table of counts by group and by inner value. *)
Record CrossTab := {
  ct_index : list value;
  ct_columns : list value;
  ct_cells : list (list nat)
}.

Definition lookup_count (k : value) (counts : list (value * nat)) : option nat :=
  (λ p, p.2.2) <$> list_find (λ p, same_key p.1 k = true) counts.

(** A group that has an entry in the series of counts: a group whose
    counted cells are all missing has none. *)
Definition counted {A B} (g : A * list B) : bool :=
  match g.2 with [] => false | _ :: _ => true end.

(** [.unstack().fillna(0)]: the groups that have an entry become the
    rows, the inner keys the columns, and a combination that does not
    occur counts 0. *)
Definition unstack_fillna (s : list (value * list (value * nat))) : CrossTab :=
  let groups := filter (λ g, counted g = true) s in
  let inner := sorted_keys (groups ≫= λ g, fst <$> g.2) in
  {| ct_index := fst <$> groups;
     ct_columns := inner;
     ct_cells := (λ g, (λ k, default 0%nat (lookup_count k g.2)) <$> inner) <$> groups |}.

(** ** Correlation (line 53) *)

Definition is_number (t : dtype) : bool :=
  match t with number => true | object => false end.

(** [d.select_dtypes(include='number')] *)
Definition select_dtypes_number (d : DataFrame) : DataFrame :=
  {| columns := filter (λ p, is_number p.2 = true) (columns d); rows := rows d |}.

(** [corr] works on [mat = data.to_numpy(dtype=float)]: the cells as IEEE
    754 binary64 numbers.  [to_float q] is the float nearest to [q], ties
    to even: the cell itself where it holds a float, the rounding of
    [astype(float)] where it holds an integer. *)
Definition Z2SF (z : Z) : spec_float :=
  match z with
  | Z0 => S754_zero false
  | Zpos p => S754_finite false p 0
  | Zneg p => S754_finite true p 0
  end.

Definition to_float (q : Q) : float :=
  let q := Qred q in
  SF2Prim (SFdiv prec emax (Z2SF (Qnum q)) (Z2SF (Zpos (Qden q)))).

(** The float of a count of observations. *)
Definition of_nobs (n : Z) : float := SF2Prim (binary_normalize prec emax n 0 false).

(** [np.isfinite] *)
Definition isfinite (x : float) : bool :=
  match Prim2SF x with
  | S754_zero _ | S754_finite _ _ _ => true
  | S754_infinity _ | S754_nan => false
  end.

(** The observations of two columns: the records where both cells are
    finite numbers ([mask[i, xi] and mask[i, yi]]). *)
Definition observations (xs ys : list value) : list (float * float) :=
  omap (λ p, match p with
             | (Num x, Num y) =>
                 let vx := to_float x in
                 let vy := to_float y in
                 if isfinite vx && isfinite vy then Some (vx, vy) else None
             | _ => None
             end) (zip xs ys).

(** The running moments of [nancorr], which follows Welford's method. *)
Record moments := {
  nobs : Z;
  meanx : float;
  meany : float;
  ssqdmx : float;
  ssqdmy : float;
  covxy : float
}.

Definition no_moments : moments :=
  {| nobs := 0; meanx := 0; meany := 0; ssqdmx := 0; ssqdmy := 0; covxy := 0 |}.

(** One turn of the loop over the records, each operation rounded on its
    own. *)
Definition welford_step (w : moments) (v : float * float) : moments :=
  let '(vx, vy) := v in
  let nobs := (nobs w + 1)%Z in
  let dx := (vx - meanx w)%float in
  let dy := (vy - meany w)%float in
  let meanx := (meanx w + 1 / of_nobs nobs * dx)%float in
  let meany := (meany w + 1 / of_nobs nobs * dy)%float in
  {| nobs := nobs; meanx := meanx; meany := meany;
     ssqdmx := (ssqdmx w + (vx - meanx) * dx)%float;
     ssqdmy := (ssqdmy w + (vy - meany) * dy)%float;
     covxy := (covxy w + (vx - meanx) * dy)%float |}.

Definition welford (obs : list (float * float)) : moments :=
  foldl welford_step no_moments obs.

(** The quotient [nancorr] stores for the moments [w], with
    [min_periods=1]: NaN without observations and where the divisor is
    zero. *)
Definition quotient (w : moments) : float :=
  if (nobs w <? 1)%Z then nan
  else
    let divisor := sqrt (ssqdmx w * ssqdmy w)%float in
    if negb (divisor =? 0)%float then (covxy w / divisor)%float else nan.

(** Pearson's coefficient of the observations, as [corr] computes it. *)
Definition pearson (obs : list (float * float)) : float := quotient (welford obs).

(** The matrix [corr] returns: its labels, and entry [(i, j)] for
    [j <= i] computed from columns [i] and [j] and written to both
    [(i, j)] and [(j, i)]. *)
Record Matrix := {
  labels : list string;
  entries : list (list float)
}.

Definition corr_entry (mat : list (list value)) (i j : nat) : float :=
  pearson (observations (mat !!! (i `max` j)%nat) (mat !!! (i `min` j)%nat)).

Definition corr (d : DataFrame) : Matrix :=
  let names := column_names d in
  let mat := column d <$> names in
  let k := length names in
  {| labels := names;
     entries := (λ i, (λ j, corr_entry mat i j) <$> seq 0 k) <$> seq 0 k |}.

(** The coefficient of the columns at positions [i] and [j]. *)
Definition coefficient (m : Matrix) (i j : nat) : option float :=
  entries m !! i ≫= λ row, row !! j.

(** [filtered_df.select_dtypes(include='number').corr()] *)
Definition correlationMatrix (view : DataFrame) : Matrix :=
  corr (select_dtypes_number view).

(** [view[c].value_counts()] *)
Definition valueCounts (view : DataFrame) (c : string) : result (list (value * nat)) :=
  value_counts <$> getitem view c.

(** [view.groupby(g)[c].value_counts().unstack().fillna(0)] *)
Definition groupedValueCounts (view : DataFrame) (g c : string) : result CrossTab :=
  unstack_fillna <$> groupby_value_counts view g c.

(** ** The page (lines 37 to 140) *)

(** What a view hands to the renderer.  For the plotly figures that is the
    cells of the columns named in the call: the bins of a histogram and
    the quartiles of a box plot are worked out by the plotting library,
    not by the script. *)
Inductive figure :=
| bar_chart (data : list (value * nat))
| pie (data : list (value * nat))
| heatmap (m : Matrix)
| bar_chart_table (t : CrossTab)
| histogram (x color : list value) (nbins : option nat)
| box (x y : list value).

Inductive element :=
| subheader (title : string)
| markdown (text : string)
| chart (f : figure)
| warning (msg : string).

(** A column named in a plotly call; plotly raises [ValueError] when the
    frame does not have it. *)
Definition px_column (d : DataFrame) (arg c : string) : result (list value) :=
  match getitem d c with
  | Ok x => Ok x
  | Raise _ => Raise (ValueError ("Value of '" ++ arg ++ "' is not the name of a column: " ++ c))
  end.

Definition px_histogram (d : DataFrame) (x color : string) (nbins : option nat) : result figure :=
  xs ← px_column d "x" x;
  cs ← px_column d "color" color;
  mret (histogram xs cs nbins).

Definition px_box (d : DataFrame) (x y : string) : result figure :=
  xs ← px_column d "x" x;
  ys ← px_column d "y" y;
  mret (box xs ys).

Definition view_counts_bar (d : DataFrame) : result element :=
  (chart ∘ bar_chart) <$> valueCounts d "Attrition".

(** Line 47 names the two columns of the reset counts [index] and
    [Attrition], as pandas before 2.0 does. *)
Definition view_counts_pie (d : DataFrame) : result element :=
  (chart ∘ pie) <$> valueCounts d "Attrition".

(** Lines 53 to 56: [sns.heatmap] takes the smallest and the largest
    entry of the matrix for its colours, and numpy raises on a matrix
    without entries. *)
Definition view_heatmap (d : DataFrame) : result element :=
  let corr := correlationMatrix d in
  match labels corr with
  | [] => Raise (ValueError "zero-size array to reduction operation fmin which has no identity")
  | _ :: _ => Ok (chart (heatmap corr))
  end.

Definition view_grouped (g : string) (d : DataFrame) : result element :=
  (chart ∘ bar_chart_table) <$> groupedValueCounts d g "Attrition".

Definition view_histogram (x : string) (nbins : option nat) (d : DataFrame) : result element :=
  chart <$> px_histogram d x "Attrition" nbins.

Definition view_box (y : string) (d : DataFrame) : result element :=
  chart <$> px_box d "Attrition" y.

(** View 20 (lines 136 to 140): the one view that looks for its column. *)
Definition view_overtime (d : DataFrame) : result element :=
  if has_column d "OverTime" then view_histogram "OverTime" None d
  else Ok (warning "OverTime column not found in dataset.").

(** A view: the header of line [st.subheader], the line of [st.markdown]
    that some views write under it, and what the view computes and draws
    after the two. *)
Record View := {
  title : string;
  note : option string;
  body : DataFrame → result element
}.

(** The twenty views in page order. *)
Definition views : list View :=
  [ {| title := "1. Overall Attrition Count";
       note := Some "This chart shows how many employees have left vs stayed.";
       body := view_counts_bar |};
    {| title := "2. Attrition Rate Pie Chart";
       note := Some "Shows percentage share of attrition.";
       body := view_counts_pie |};
    {| title := "3. Correlation Heatmap";
       note := Some "Heatmap showing correlations among numerical features.";
       body := view_heatmap |};
    {| title := "4. Attrition by Gender";
       note := Some "Check gender-wise attrition trends.";
       body := view_grouped "Gender" |};
    {| title := "5. Attrition by Marital Status";
       note := Some "Marital status and attrition correlation.";
       body := view_grouped "MaritalStatus" |};
    {| title := "6. Age Distribution";
       note := Some "Histogram of employee ages filtered by attrition.";
       body := view_histogram "Age" (Some 20%nat) |};
    {| title := "7. Job Satisfaction vs Attrition";
       note := Some "Explore if job satisfaction affects attrition.";
       body := view_box "JobSatisfaction" |};
    {| title := "8. Environment Satisfaction vs Attrition"; note := None;
       body := view_box "EnvironmentSatisfaction" |};
    {| title := "9. Work-Life Balance vs Attrition"; note := None;
       body := view_box "WorkLifeBalance" |};
    {| title := "10. Attrition by Job Role";
       note := Some "Some roles may have higher attrition.";
       body := view_histogram "JobRole" None |};
    {| title := "11. Distance from Home";
       note := Some "Distance might impact employee turnover.";
       body := view_box "DistanceFromHome" |};
    {| title := "12. Monthly Income vs Attrition"; note := None;
       body := view_box "MonthlyIncome" |};
    {| title := "13. Years at Company vs Attrition"; note := None;
       body := view_box "YearsAtCompany" |};
    {| title := "14. Business Travel vs Attrition"; note := None;
       body := view_histogram "BusinessTravel" None |};
    {| title := "15. Performance Rating vs Attrition";
       note := Some "Check whether high performers also leave.";
       body := view_histogram "PerformanceRating" None |};
    {| title := "16. Years Since Last Promotion"; note := None;
       body := view_box "YearsSinceLastPromotion" |};
    {| title := "17. Years with Current Manager"; note := None;
       body := view_box "YearsWithCurrManager" |};
    {| title := "18. Education Field vs Attrition"; note := None;
       body := view_histogram "EducationField" None |};
    {| title := "19. Education Level vs Attrition"; note := None;
       body := view_histogram "Education" None |};
    {| title := "20. Overtime vs Attrition"; note := None; body := view_overtime |} ].

(** What a view writes before it computes anything. *)
Definition heading (v : View) : list element :=
  subheader (title v) :: match note v with Some text => [markdown text] | None => [] end.

(** Running the views one after the other: an exception in a view ends
    the run, and what was written before it stays on the page. *)
Fixpoint render (vs : list View) (d : DataFrame) : list element * option exn :=
  match vs with
  | [] => ([], None)
  | v :: vs' =>
      match body v d with
      | Raise e => (heading v, Some e)
      | Ok el => let '(out, x) := render vs' d in ((heading v ++ el :: out)%list, x)
      end
  end.

(** One run of the script on the loaded table with the sidebar's
    selections: what the views write on the page, and the exception that
    ended the run, if any. *)
Definition sidebar (table : DataFrame) : result unit :=
  _ ← selectbox_options table "Gender";
  _ ← selectbox_options table "Department";
  bounds ← slider_bounds table;
  slider bounds.1 bounds.2 (25, 45)%Z.

Definition script (table : DataFrame) (spec : FilterSpecification)
  : list element * option exn :=
  match sidebar table ≫= λ _, applyFilter table spec with
  | Raise e => ([], Some e)
  | Ok view => render views view
  end.

(** The columns the views read, apart from [OverTime]. *)
Definition required_columns : list string :=
  [ "Attrition"; "Gender"; "Age"; "MaritalStatus";
    "JobSatisfaction"; "EnvironmentSatisfaction"; "WorkLifeBalance";
    "JobRole"; "DistanceFromHome"; "MonthlyIncome"; "YearsAtCompany";
    "BusinessTravel"; "PerformanceRating"; "YearsSinceLastPromotion";
    "YearsWithCurrManager"; "EducationField"; "Education" ].

(** ** Predicates of the statements *)

(** The constraints of a filter specification on one record: a selection
    box passes everything on ["All"] and otherwise wants the cell to equal
    the selection; the slider wants a number within its two ends. *)
Definition sel_ok (c : string) (sel : value) (r : gmap string value) : bool :=
  if py_ne sel (Str "All") then py_eq (cell c r) sel else true.

Definition gender_ok (spec : FilterSpecification) (r : gmap string value) : bool :=
  sel_ok "Gender" (gender spec) r.

Definition department_ok (spec : FilterSpecification) (r : gmap string value) : bool :=
  sel_ok "Department" (department spec) r.

Definition ge_bool (k : Z) (x : value) : bool :=
  match x with Num q => Qle_bool (inject_Z k) q | _ => false end.

Definition le_bool (k : Z) (x : value) : bool :=
  match x with Num q => Qle_bool q (inject_Z k) | _ => false end.

Definition age_ok (spec : FilterSpecification) (r : gmap string value) : bool :=
  ge_bool (age_range spec).1 (cell "Age" r) && le_bool (age_range spec).2 (cell "Age" r).

Definition satisfies (spec : FilterSpecification) (r : gmap string value) : bool :=
  gender_ok spec r && department_ok spec r && age_ok spec r.

(** The same constraints as propositions. *)
Definition matches (c : string) (sel : value) (r : gmap string value) : Prop :=
  sel ≠ Str "All" → py_eq (cell c r) sel = true.

Definition in_range (lo hi : Z) (r : gmap string value) : Prop :=
  ∃ q, cell "Age" r = Num q ∧ (inject_Z lo <= q)%Q ∧ (q <= inject_Z hi)%Q.

Definition meets (spec : FilterSpecification) (r : gmap string value) : Prop :=
  matches "Gender" (gender spec) r ∧
  matches "Department" (department spec) r ∧
  in_range (age_range spec).1 (age_range spec).2 r.

(** The records of a table whose cell in column [c] is the text [s]. *)
Definition records_with (c s : string) (table : DataFrame) : list (gmap string value) :=
  filter (λ r, py_eq (cell c r) (Str s) = true) (rows table).

(** A table the filter block runs on: it has the three filter columns, and
    no [Age] cell is text. *)
Definition not_text (v : value) : Prop :=
  match v with Str _ => False | _ => True end.

Record filterable (d : DataFrame) : Prop := {
  filterable_gender : has_column d "Gender" = true;
  filterable_department : has_column d "Department" = true;
  filterable_age : has_column d "Age" = true;
  filterable_numeric : Forall (λ r, not_text (cell "Age" r)) (rows d)
}.

(** A run that writes into no object: what the store held it still
    holds. *)
Definition preserving {A} (m : Run A) : Prop := ∀ σ, σ ⊆ (m σ).2.

(** The run on objects and the function on values of the filter block
    go together: the scope and the store stand for an environment when
    the selections are the same and [filtered_df] names a frame, made
    since the run began, that is the one the environment holds. *)
Definition spec_of (e : env) : FilterSpecification :=
  {| gender := selected_gender e; department := selected_department e;
     age_range := selected_age e |}.

Definition stands_for (σ0 : store) (s : scope) (σ : store) (e : env) : Prop :=
  σ0 ⊆ σ ∧
  selections s = spec_of e ∧
  ∃ r, var_filtered_df s = Some r ∧ σ0 !! r = None ∧ σ !! r = Some (filtered_df e).

Definition agrees (σ0 : store) (s : scope) (out : result scope * store) (res : result env)
  : Prop :=
  match out.1, res with
  | Ok s', Ok e' => var_df s' = var_df s ∧ stands_for σ0 s' out.2 e'
  | Raise x, Raise y => x = y
  | _, _ => False
  end.

(** The number of cells of a series with the key [k]. *)
Definition occurrences (k : value) (l : list value) : nat :=
  length (filter (λ v, same_key v k = true) l).

(** No two entries of a table of counts have the same key. *)
Fixpoint distinct_keys (acc : list (value * nat)) : Prop :=
  match acc with
  | [] => True
  | p :: acc' => Forall (λ q, same_key q.1 p.1 = false) acc' ∧ distinct_keys acc'
  end.

(** The labels of the numeric columns of a view. *)
Definition numeric_names (view : DataFrame) : list string :=
  column_names (select_dtypes_number view).

(** Pearson's coefficient of two columns. *)
Definition pearson_of (xs ys : list value) : float := pearson (observations xs ys).

(** A column without variance: its numbers are all equal (so also a
    column with one number or none). *)
Definition constant (col : list value) : Prop :=
  ∀ p q, Num p ∈ col → Num q ∈ col → (p == q)%Q.

(** A float that is a zero, of either sign. *)
Definition Fzero (x : float) : Prop := ∃ s, Prim2SF x = S754_zero s.

(** The moments of one column after some observations that all are [c]:
    none yet; or the mean is [c] and the sum of squares a zero; or both
    are NaN. *)
Definition flat (c : float) (n : Z) (m s : float) : Prop :=
  (n = 0%Z ∧ m = 0%float ∧ s = 0%float) ∨
  ((0 < n)%Z ∧ ((Fzero (c - m) ∧ Fzero s) ∨ (m = nan ∧ s = nan))).

(** The sum of the squared deviations of a column, as [nancorr] has it
    after the last record. *)
Definition sum_squares (col : list value) : float :=
  ssqdmx (welford (observations col col)).

(** The quotient of [s] by the root of its square. *)
Definition unit_quotient (s : float) : float :=
  if negb (sqrt (s * s) =? 0)%float then (s / sqrt (s * s))%float else nan.

(** The entry of a column against itself. *)
Definition diagonal (col : list value) : float := unit_quotient (sum_squares col).

(** The page of a run in which every view of [l] drew its figure. *)
Definition page (l : list (View * figure)) : list element :=
  l ≫= λ p, (heading p.1 ++ [chart p.2])%list.

(** An age the slider can hold. *)
Definition safe_age (v : value) : Prop :=
  match v with
  | Num q => (inject_Z MIN_SAFE_INTEGER <= q <= inject_Z MAX_SAFE_INTEGER)%Q
  | _ => True
  end.

(** A frame with every column the views read, [OverTime] apart. *)
Definition complete (d : DataFrame) : Prop :=
  Forall (λ c, has_column d c = true) required_columns.

(** The figures of the first nineteen views on a view that has their
    columns. *)
Definition drawn (d : DataFrame) : list figure :=
  let attrition := column d "Attrition" in
  let counts g := unstack_fillna
    ((λ k, (k, value_counts (group_cells (column d g) attrition k)))
       <$> sorted_keys (column d g)) in
  [ bar_chart (value_counts attrition);
    pie (value_counts attrition);
    heatmap (correlationMatrix d);
    bar_chart_table (counts "Gender");
    bar_chart_table (counts "MaritalStatus");
    histogram (column d "Age") attrition (Some 20%nat);
    box attrition (column d "JobSatisfaction");
    box attrition (column d "EnvironmentSatisfaction");
    box attrition (column d "WorkLifeBalance");
    histogram (column d "JobRole") attrition None;
    box attrition (column d "DistanceFromHome");
    box attrition (column d "MonthlyIncome");
    box attrition (column d "YearsAtCompany");
    histogram (column d "BusinessTravel") attrition None;
    histogram (column d "PerformanceRating") attrition None;
    box attrition (column d "YearsSinceLastPromotion");
    box attrition (column d "YearsWithCurrManager");
    histogram (column d "EducationField") attrition None;
    histogram (column d "Education") attrition None ].

(** What the last view adds to the page. *)
Definition overtime_element (d : DataFrame) : element :=
  if has_column d "OverTime"
  then chart (histogram (column d "OverTime") (column d "Attrition") None)
  else warning "OverTime column not found in dataset.".

(** ** Sample tables *)

Definition record (l : list (string * value)) : gmap string value := list_to_map l.

Definition staff_columns : list (string * dtype) :=
  [ ("Gender", object); ("Department", object); ("Age", number); ("Attrition", object) ].

Definition staff : DataFrame :=
  {| columns := staff_columns;
     rows :=
       [ record [("Gender", Str "Male"); ("Department", Str "Sales");
                 ("Age", Num 30); ("Attrition", Str "Yes")];
         record [("Gender", Str "Female"); ("Department", Str "Sales");
                 ("Age", Num 41); ("Attrition", Str "No")];
         record [("Gender", Str "Male"); ("Department", Str "Research");
                 ("Age", Num 52); ("Attrition", Str "No")] ] |}.

Definition no_filter (lo hi : Z) : FilterSpecification :=
  {| gender := Str "All"; department := Str "All"; age_range := (lo, hi) |}.

(** One record has no age. *)
Definition gappy : DataFrame :=
  {| columns := staff_columns;
     rows :=
       [ record [("Gender", Str "Male"); ("Department", Str "Sales");
                 ("Age", Num 30); ("Attrition", Str "Yes")];
         record [("Gender", Str "Female"); ("Department", Str "Sales");
                 ("Age", NaN); ("Attrition", NaN)] ] |}.

(** A table whose one gender is called ["All"]. *)
Definition only_all : DataFrame :=
  {| columns := staff_columns;
     rows :=
       [ record [("Gender", Str "All"); ("Department", Str "Sales");
                 ("Age", Num 30); ("Attrition", Str "No")] ] |}.

(** A gender called ["All"] next to another one. *)
Definition mixed_all : DataFrame :=
  {| columns := staff_columns;
     rows :=
       [ record [("Gender", Str "All"); ("Department", Str "Sales");
                 ("Age", Num 30); ("Attrition", Str "No")];
         record [("Gender", Str "Male"); ("Department", Str "Sales");
                 ("Age", Num 30); ("Attrition", Str "Yes")] ] |}.

Definition men (lo hi : Z) : FilterSpecification :=
  {| gender := Str "Male"; department := Str "All"; age_range := (lo, hi) |}.

(** Three measured columns: two that agree and one that never varies. *)
Definition measures : DataFrame :=
  {| columns := [("A", number); ("B", number); ("C", number)];
     rows :=
       [ record [("A", Num 1); ("B", Num 1); ("C", Num 5)];
         record [("A", Num 2); ("B", Num 2); ("C", Num 5)];
         record [("A", Num 3); ("B", Num 3); ("C", Num 5)] ] |}.



(** A view of one record. *)
Definition single : DataFrame :=
  {| columns := staff_columns;
     rows :=
       [ record [("Gender", Str "Male"); ("Department", Str "Sales");
                 ("Age", Num 30); ("Attrition", Str "Yes")] ] |}.

(** The view the filter leaves when nobody is in the age range. *)
Definition nobody : DataFrame := {| columns := staff_columns; rows := [] |}.

(** Tables with the columns of the sidebar and of the views, without
    [OverTime]; the second also lacks [MaritalStatus]. *)
Definition one_employee : list (gmap string value) :=
  [ record [("Attrition", Str "Yes"); ("Gender", Str "Male"); ("Department", Str "Sales");
            ("Age", Num 30); ("MaritalStatus", Str "Single")] ].

Definition no_overtime : DataFrame :=
  {| columns := (λ c, (c, if bool_decide (c = "Age") then number else object))
                  <$> "Department" :: required_columns;
     rows := one_employee |}.

Definition no_marital : DataFrame :=
  {| columns := (λ c, (c, if bool_decide (c = "Age") then number else object))
                  <$> "Department" :: filter (λ c, c ≠ "MaritalStatus") required_columns;
     rows :=
       [ record [("Attrition", Str "Yes"); ("Gender", Str "Male");
                 ("Department", Str "Sales"); ("Age", Num 30)] ] |}.

(** ** Further predicates and sample tables *)

(** No two cells of a list are the same key. *)
Fixpoint distinct_values (l : list value) : Prop :=
  match l with
  | [] => True
  | x :: l' => Forall (λ y, same_key y x = false) l' ∧ distinct_values l'
  end.

(** When the filter block runs: the column of a selection box is there
    unless the box is on ["All"], the [Age] column is there, and no record
    that passes both boxes has text for its age. *)
Definition runnable (table : DataFrame) (spec : FilterSpecification) : Prop :=
  (gender spec ≠ Str "All" → has_column table "Gender" = true) ∧
  (department spec ≠ Str "All" → has_column table "Department" = true) ∧
  has_column table "Age" = true ∧
  Forall (λ r, gender_ok spec r = true → department_ok spec r = true →
               not_text (cell "Age" r)) (rows table).

(** A list in the order of [leb]: every element precedes the next. *)
Fixpoint ordered {A} (leb : A → A → bool) (l : list A) : Prop :=
  match l with
  | [] => True
  | x :: l' => match l' with [] => True | y :: _ => leb x y = true end ∧ ordered leb l'
  end.

(** Further sample tables. *)



(** Every column the views read. *)
Definition with_overtime : DataFrame :=
  {| columns := (columns no_overtime ++ [("OverTime", object)])%list;
     rows :=
       [ record [("Attrition", Str "Yes"); ("Gender", Str "Male"); ("Department", Str "Sales");
                 ("Age", Num 30); ("MaritalStatus", Str "Single"); ("OverTime", Str "Yes")] ] |}.

(** A store with the one table, and a scope in which [filtered_df]
    names the table itself before the block runs. *)
Definition one_table : store := {[ 1%positive := staff ]}.

Definition aliased : scope :=
  {| var_df := Some 1%positive; var_selected_gender := Str "Male";
     var_selected_department := Str "All"; var_selected_age := (25, 45)%Z;
     var_filtered_df := Some 1%positive |}.

(** The gender box on the missing value. *)
Definition missing_gender (lo hi : Z) : FilterSpecification :=
  {| gender := NaN; department := Str "All"; age_range := (lo, hi) |}.

(** * Properties *)

(** ** The filter block *)

Lemma copy_id d : copy d = d.
Proof. by destruct d. Qed.

Lemma keep_fmap {A} (p : A → bool) (l : list A) :
  keep (p <$> l) l = filter (λ x, p x = true) l.
Proof.
  induction l as [|x l IH]; [done|].
  cbn [fmap list_fmap keep]. rewrite filter_cons.
  destruct (p x) eqn:Hp; rewrite IH; by case_decide.
Qed.

Lemma filter_true {A} (l : list A) : filter (λ _, true = true) l = l.
Proof.
  induction l as [|x l IH]; [done|].
  rewrite filter_cons, IH. by case_decide.
Qed.

Lemma ge_scalar_total col k :
  Forall not_text col → ge_scalar col k = Ok (ge_bool k <$> col).
Proof.
  unfold ge_scalar. induction 1 as [|x col Hx _ IH]; [done|].
  cbn [mapM]. rewrite IH. by destruct x.
Qed.

Lemma le_scalar_total col k :
  Forall not_text col → le_scalar col k = Ok (le_bool k <$> col).
Proof.
  unfold le_scalar. induction 1 as [|x col Hx _ IH]; [done|].
  cbn [mapM]. rewrite IH. by destruct x.
Qed.

Lemma mask_and_fmap {A} (p q : A → bool) (l : list A) :
  mask_and (p <$> l) (q <$> l) = (λ x, p x && q x) <$> l.
Proof. unfold mask_and. induction l; [done|]. cbn. by f_equal. Qed.

Lemma getitem_has d c :
  has_column d c = true → getitem d c = Ok (column d c).
Proof. unfold getitem. by intros ->. Qed.

(** The statement for one selection box keeps the records that pass it. *)
Lemma stmt_select_rows c sel e :
  has_column (filtered_df e) c = true →
  stmt_select c sel e =
    Ok (set_filtered_df e
          {| columns := columns (filtered_df e);
             rows := filter (λ r, sel_ok c sel r = true) (rows (filtered_df e)) |}).
Proof.
  intros Hc. unfold stmt_select, sel_ok. destruct (py_ne sel (Str "All")).
  - rewrite (getitem_has _ _ Hc). cbn. unfold getitem_mask, eq_scalar, column.
    rewrite <- list_fmap_compose.
    by rewrite keep_fmap.
  - rewrite filter_true. destruct e as [? ? ? ? []]. done.
Qed.

Lemma stmt_age_rows e :
  has_column (filtered_df e) "Age" = true →
  Forall (λ r, not_text (cell "Age" r)) (rows (filtered_df e)) →
  stmt_age e =
    Ok (set_filtered_df e
          {| columns := columns (filtered_df e);
             rows := filter (λ r, ge_bool (selected_age e).1 (cell "Age" r)
                                  && le_bool (selected_age e).2 (cell "Age" r) = true)
                      (rows (filtered_df e)) |}).
Proof.
  intros Hc Hn. unfold stmt_age. rewrite (getitem_has _ _ Hc). cbn.
  assert (Forall not_text (column (filtered_df e) "Age")) as Hn'
    by by apply Forall_fmap.
  rewrite (ge_scalar_total _ _ Hn'), (le_scalar_total _ _ Hn'). cbn.
  unfold getitem_mask, column. rewrite mask_and_fmap, <- list_fmap_compose.
  by rewrite keep_fmap.
Qed.

Lemma Forall_filter_weak {A} (P Q : A → Prop) `{∀ x, Decision (Q x)} (l : list A) :
  Forall P l → Forall P (filter Q l).
Proof.
  intros HP. apply Forall_forall. intros x Hx.
  apply list_elem_of_filter in Hx as [_ Hx]. by eapply Forall_forall in HP.
Qed.

(** On a table it can run on, the block ends with the records that satisfy
    the specification, in table order, under the table's columns. *)
Lemma apply_filters_rows e :
  filterable (df e) →
  apply_filters e =
    Ok (set_filtered_df e
          {| columns := columns (df e);
             rows := filter (λ r, satisfies
                                    {| gender := selected_gender e;
                                       department := selected_department e;
                                       age_range := selected_age e |} r = true)
                      (rows (df e)) |}).
Proof.
  intros [Hg Hd Ha Hn]. unfold apply_filters, stmt_copy. cbn [mbind result_bind].
  rewrite copy_id.
  rewrite stmt_select_rows by done. cbn [mbind result_bind set_filtered_df filtered_df
    selected_department selected_gender selected_age df].
  rewrite stmt_select_rows by done. cbn [mbind result_bind set_filtered_df filtered_df
    selected_department selected_gender selected_age df columns rows].
  rewrite stmt_age_rows; cbn [set_filtered_df filtered_df selected_age df columns rows].
  - do 2 f_equal. rewrite !list_filter_filter. f_equal. apply list_filter_iff. intros r.
    unfold satisfies, gender_ok, department_ok, age_ok. cbn.
    rewrite !andb_true_iff. tauto.
  - done.
  - by do 2 apply Forall_filter_weak.
Qed.

Lemma applyFilter_rows table spec :
  filterable table →
  applyFilter table spec =
    Ok {| columns := columns table;
          rows := filter (λ r, satisfies spec r = true) (rows table) |}.
Proof.
  intros Hf. unfold applyFilter. rewrite apply_filters_rows by done.
  by destruct spec.
Qed.

(** Whenever the block returns, that is what it returns. *)
Lemma getitem_inv d c col : getitem d c = Ok col → has_column d c = true.
Proof. unfold getitem. by destruct (has_column d c). Qed.

Lemma ge_scalar_inv col k mask : ge_scalar col k = Ok mask → Forall not_text col.
Proof.
  unfold ge_scalar. revert mask. induction col as [|x col IH]; intros mask; [constructor|].
  cbn [mapM]. destruct (mapM (λ x, py_ge x k) col) as [m|] eqn:E.
  - intros H. constructor; [|by eapply IH]. by destruct x.
  - by destruct x.
Qed.

Lemma stmt_select_inv c sel e e' :
  stmt_select c sel e = Ok e' →
  e' = set_filtered_df e
         {| columns := columns (filtered_df e);
            rows := filter (λ r, sel_ok c sel r = true) (rows (filtered_df e)) |}.
Proof.
  intros H. destruct (py_ne sel (Str "All")) eqn:E.
  - assert (has_column (filtered_df e) c = true) as Hc.
    { unfold stmt_select in H. rewrite E in H.
      destruct (getitem (filtered_df e) c) eqn:Hg; [by eapply getitem_inv|done]. }
    rewrite (stmt_select_rows _ _ _ Hc) in H. by injection H as <-.
  - unfold stmt_select in H. rewrite E in H. injection H as <-.
    unfold sel_ok. rewrite E, filter_true. by destruct e as [? ? ? ? []].
Qed.

Lemma stmt_age_inv e e' :
  stmt_age e = Ok e' →
  e' = set_filtered_df e
         {| columns := columns (filtered_df e);
            rows := filter (λ r, ge_bool (selected_age e).1 (cell "Age" r)
                                 && le_bool (selected_age e).2 (cell "Age" r) = true)
                     (rows (filtered_df e)) |}.
Proof.
  intros H.
  assert (has_column (filtered_df e) "Age" = true
          ∧ Forall not_text (column (filtered_df e) "Age")) as [Hc Hn].
  { unfold stmt_age in H.
    destruct (getitem (filtered_df e) "Age") as [col|] eqn:Hg; [|done].
    split; [by eapply getitem_inv|].
    rewrite (getitem_has _ _ (getitem_inv _ _ _ Hg)) in Hg. injection Hg as <-.
    cbn in H. destruct (ge_scalar _ _) eqn:Hge; [|done]. by eapply ge_scalar_inv. }
  rewrite stmt_age_rows in H; [by injection H as <-|done|].
  unfold column in Hn. rewrite Forall_fmap in Hn. exact Hn.
Qed.

Lemma apply_filters_inv e e' :
  apply_filters e = Ok e' →
  e' = set_filtered_df e
         {| columns := columns (df e);
            rows := filter (λ r, satisfies
                                   {| gender := selected_gender e;
                                      department := selected_department e;
                                      age_range := selected_age e |} r = true)
                     (rows (df e)) |}.
Proof.
  unfold apply_filters, stmt_copy. cbn [mbind result_bind]. rewrite copy_id.
  destruct (stmt_select "Gender" _ _) as [e2|] eqn:H2; cbn [mbind result_bind]; [|done].
  destruct (stmt_select "Department" _ _) as [e3|] eqn:H3; cbn [mbind result_bind]; [|done].
  intros H4. apply stmt_select_inv in H2 as ->. apply stmt_select_inv in H3 as ->.
  apply stmt_age_inv in H4 as ->.
  cbn [set_filtered_df filtered_df selected_department selected_gender selected_age df
       columns rows].
  do 2 f_equal. rewrite !list_filter_filter. apply list_filter_iff. intros r.
  unfold satisfies, gender_ok, department_ok, age_ok. cbn.
  rewrite !andb_true_iff. tauto.
Qed.

Lemma applyFilter_inv table spec view :
  applyFilter table spec = Ok view →
  view = {| columns := columns table;
            rows := filter (λ r, satisfies spec r = true) (rows table) |}.
Proof.
  unfold applyFilter. destruct (apply_filters _) as [e'|] eqn:H; cbn; [|done].
  intros [= <-]. apply apply_filters_inv in H as ->. by destruct spec.
Qed.

Lemma py_ne_All (g : value) : py_ne g (Str "All") = true ↔ g ≠ Str "All".
Proof.
  unfold py_ne. destruct g as [s| |]; cbn; [|done..].
  rewrite negb_true_iff, bool_decide_eq_false. split; [congruence|].
  intros H ->. by apply H.
Qed.

Lemma py_eq_Str (v : value) (s : string) : py_eq v (Str s) = true ↔ v = Str s.
Proof.
  destruct v as [t| |]; cbn; [|done..].
  rewrite bool_decide_eq_true. split; congruence.
Qed.

Lemma sel_ok_matches c sel r : sel_ok c sel r = true ↔ matches c sel r.
Proof.
  unfold sel_ok, matches. destruct (py_ne sel (Str "All")) eqn:E.
  - apply py_ne_All in E. tauto.
  - split; [|done]. intros _ H. apply py_ne_All in H. congruence.
Qed.

Lemma age_ok_in_range spec r :
  age_ok spec r = true ↔ in_range (age_range spec).1 (age_range spec).2 r.
Proof.
  unfold age_ok, in_range, ge_bool, le_bool. destruct (cell "Age" r) as [s|q|].
  - split; [done|]. by intros (? & ? & _).
  - rewrite andb_true_iff, !Qle_bool_iff. split.
    + intros []. by exists q.
    + intros (q' & [= <-] & ? & ?). done.
  - split; [done|]. by intros (? & ? & _).
Qed.

Lemma satisfies_meets spec r : satisfies spec r = true ↔ meets spec r.
Proof.
  unfold satisfies, meets, gender_ok, department_ok.
  rewrite !andb_true_iff, !sel_ok_matches, age_ok_in_range. tauto.
Qed.

Ltac solve_filterable :=
  split; [reflexivity | reflexivity | reflexivity | repeat constructor].

(** C1. For every table and every filter specification, whatever the
    filter block returns is the table's records in table order with those
    kept that pass the gender selection (or the selection is "All"), pass
    the department selection (or it is "All") and have an age within the
    two ends of the slider, all three at once: a record is in the view
    exactly when it is a record of the table that meets all three.  And
    the block does return on every table that has the three filter columns
    and no text for an age. *)
Theorem applyFilter_sound_complete table spec :
  (∀ view, applyFilter table spec = Ok view →
     columns view = columns table ∧
     rows view = filter (λ r, satisfies spec r = true) (rows table) ∧
     rows view `sublist_of` rows table ∧
     ∀ r, r ∈ rows view ↔ r ∈ rows table ∧ meets spec r) ∧
  (filterable table → ∃ view, applyFilter table spec = Ok view).
Proof.
  split.
  - intros view ->%applyFilter_inv. cbn.
    split_and!; [done | done | apply sublist_filter |].
    intros r. rewrite list_elem_of_filter, satisfies_meets. tauto.
  - intros Hf. eexists. by apply applyFilter_rows.
Qed.

Lemma applyFilter_sound_complete_witness :
  ∃ view,
    applyFilter staff (men 25 45) = Ok view ∧
    columns view = columns staff ∧
    rows view = filter (λ r, satisfies (men 25 45) r = true) (rows staff) ∧
    rows view `sublist_of` rows staff ∧
    ∀ r, r ∈ rows view ↔ r ∈ rows staff ∧ meets (men 25 45) r.
Proof.
  destruct (applyFilter_sound_complete staff (men 25 45)) as [Hview Hruns].
  destruct Hruns as [view Hv]; [solve_filterable|].
  exists view. split; [exact Hv|]. exact (Hview view Hv).
Defined.

(** The sample run of the specification: filtering the three-record table
    by gender keeps the two male records. *)
Example applyFilter_staff_male :
  applyFilter staff (men 18 60)
  = Ok {| columns := staff_columns;
          rows := [ record [("Gender", Str "Male"); ("Department", Str "Sales");
                            ("Age", Num 30); ("Attrition", Str "Yes")];
                    record [("Gender", Str "Male"); ("Department", Str "Research");
                            ("Age", Num 52); ("Attrition", Str "No")] ] |}.
Proof. reflexivity. Qed.

(** ** The table is read, never written *)

Lemma preserving_ret {A} (a : A) : preserving (mret a).
Proof. by intros σ. Qed.

Lemma preserving_pure {A} (r : result A) : preserving (pure r).
Proof. by intros σ. Qed.

Lemma preserving_load x : preserving (load x).
Proof. by intros σ. Qed.

Lemma preserving_new d : preserving (new d).
Proof.
  intros σ. cbn. apply insert_subseteq, not_elem_of_dom, is_fresh.
Qed.

Lemma preserving_bind {A B} (m : Run A) (f : A → Run B) :
  preserving m → (∀ a, preserving (f a)) → preserving (m ≫= f).
Proof.
  intros Hm Hf σ. unfold mbind, run_bind. specialize (Hm σ).
  destruct (m σ) as [[a|e] σ']; [|done]. cbn in *. etrans; [done|apply Hf].
Qed.

Ltac solve_preserving :=
  repeat first
    [ apply preserving_ret | apply preserving_pure | apply preserving_load
    | apply preserving_new | apply preserving_bind; [|intros ?] ].

Lemma preserving_copy s : preserving (run_copy s).
Proof. unfold run_copy. solve_preserving. Qed.

Lemma preserving_select c sel s : preserving (run_select c sel s).
Proof. unfold run_select. destruct (py_ne _ _); solve_preserving. Qed.

Lemma preserving_age s : preserving (run_age s).
Proof. unfold run_age. solve_preserving. Qed.

Lemma preserving_filters s : preserving (run_filters s).
Proof.
  unfold run_filters.
  solve_preserving; auto using preserving_copy, preserving_select, preserving_age.
Qed.

Lemma stands_for_new σ0 s σ e d :
  σ0 ⊆ σ → selections s = spec_of e →
  stands_for σ0 (assign_filtered_df s (fresh (dom σ))) (<[fresh (dom σ) := d]> σ)
    (set_filtered_df e d).
Proof.
  intros Hsub Hsel.
  assert (σ !! fresh (dom σ) = None) as Hfresh by apply not_elem_of_dom, is_fresh.
  split_and!.
  - etrans; [done|]. by apply insert_subseteq.
  - done.
  - exists (fresh (dom σ)). split_and!; [done| |apply lookup_insert_eq].
    by eapply lookup_weaken_None.
Qed.

Lemma load_stands_for σ0 s σ e :
  stands_for σ0 s σ e → load (var_filtered_df s) σ = (Ok (filtered_df e), σ).
Proof. intros (_ & _ & r & Hr & _ & Hd). unfold load. rewrite Hr. cbn. by rewrite Hd. Qed.

Lemma run_select_eq σ0 c sel s σ e :
  stands_for σ0 s σ e →
  run_select c sel s σ
  = if py_ne sel (Str "All") then
      match getitem (filtered_df e) c with
      | Ok col =>
          (Ok (assign_filtered_df s (fresh (dom σ))),
           <[fresh (dom σ) := getitem_mask (filtered_df e) (eq_scalar col sel)]> σ)
      | Raise x => (Raise x, σ)
      end
    else (Ok s, σ).
Proof.
  intros Hs. unfold run_select. destruct (py_ne sel (Str "All")); [|done].
  unfold mbind, run_bind, pure. rewrite !(load_stands_for _ _ _ _ Hs).
  by destruct (getitem (filtered_df e) c).
Qed.

Lemma run_age_eq σ0 s σ e :
  stands_for σ0 s σ e →
  run_age s σ
  = match
      col1 ← getitem (filtered_df e) "Age";
      m1 ← ge_scalar col1 (selected_age e).1;
      col2 ← getitem (filtered_df e) "Age";
      m2 ← le_scalar col2 (selected_age e).2;
      mret (getitem_mask (filtered_df e) (mask_and m1 m2))
    with
    | Ok d => (Ok (assign_filtered_df s (fresh (dom σ))), <[fresh (dom σ) := d]> σ)
    | Raise x => (Raise x, σ)
    end.
Proof.
  intros Hs. pose proof Hs as (_ & Hsel & _).
  assert (var_selected_age s = selected_age e) as Ha by by injection Hsel.
  unfold run_age. unfold mbind at 1 2 3 4 5 6 7 8, run_bind, pure.
  rewrite !(load_stands_for _ _ _ _ Hs), Ha.
  destruct (getitem (filtered_df e) "Age") as [col|x]; [|done]. cbn [mbind result_bind].
  destruct (ge_scalar col (selected_age e).1) as [m1|x]; [|done]. cbn [mbind result_bind].
  rewrite ?(load_stands_for _ _ _ _ Hs).
  by destruct (le_scalar col (selected_age e).2) as [m2|x].
Qed.

Lemma run_select_agrees σ0 c sel s σ e :
  stands_for σ0 s σ e → agrees σ0 s (run_select c sel s σ) (stmt_select c sel e).
Proof.
  intros Hs. pose proof Hs as (Hsub & Hsel & _).
  rewrite (run_select_eq _ _ _ _ _ _ Hs). unfold stmt_select, agrees.
  destruct (py_ne sel (Str "All")); [|done].
  destruct (getitem (filtered_df e) c) as [col|x]; [|done].
  cbn. split; [done|]. by apply stands_for_new.
Qed.

Lemma run_age_agrees σ0 s σ e :
  stands_for σ0 s σ e → agrees σ0 s (run_age s σ) (stmt_age e).
Proof.
  intros Hs. pose proof Hs as (Hsub & Hsel & _).
  rewrite (run_age_eq _ _ _ _ Hs). unfold stmt_age, agrees.
  destruct (getitem (filtered_df e) "Age") as [col|x]; [|done]. cbn [mbind result_bind].
  destruct (ge_scalar col (selected_age e).1) as [m1|x]; [|done]. cbn [mbind result_bind].
  destruct (le_scalar col (selected_age e).2) as [m2|x]; [|done].
  cbn. split; [done|]. by apply stands_for_new.
Qed.

Lemma agrees_bind σ0 s (m : Run scope) f σ res g :
  agrees σ0 s (m σ) res →
  (∀ s' σ' e', var_df s' = var_df s → stands_for σ0 s' σ' e' →
     agrees σ0 s' (f s' σ') (g e')) →
  agrees σ0 s ((m ≫= f) σ) (res ≫= g).
Proof.
  unfold agrees at 1. unfold mbind at 1, run_bind. intros Hm Hf.
  destruct (m σ) as [[s'|x] σ'], res as [e'|y]; cbn in Hm; try done.
  destruct Hm as [Hdf Hs]. specialize (Hf s' σ' e' Hdf Hs).
  unfold agrees in *. cbn [mbind result_bind].
  destruct (f s' σ') as [[s''|x] σ''], (g e') as [e''|y]; cbn in *; try done.
  destruct Hf as [Hdf' Hs']. split; [congruence|done].
Qed.

Lemma run_copy_eq s σ r table :
  var_df s = Some r → σ !! r = Some table →
  run_copy s σ
  = (Ok (assign_filtered_df s (fresh (dom σ))), <[fresh (dom σ) := copy table]> σ).
Proof.
  intros Hr Ht. unfold run_copy, mbind, run_bind, load. rewrite Hr. cbn. by rewrite Ht.
Qed.

Lemma run_filters_agrees s σ r table :
  var_df s = Some r → σ !! r = Some table →
  agrees σ s (run_filters s σ)
    (apply_filters {| df := table; selected_gender := var_selected_gender s;
                      selected_department := var_selected_department s;
                      selected_age := var_selected_age s; filtered_df := table |}).
Proof.
  intros Hr Ht. unfold run_filters, apply_filters.
  apply agrees_bind.
  { rewrite (run_copy_eq _ _ _ _ Hr Ht). unfold stmt_copy, agrees. cbn [fst snd df].
    split; [done|].
    by apply (stands_for_new σ s σ
                {| df := table; selected_gender := var_selected_gender s;
                   selected_department := var_selected_department s;
                   selected_age := var_selected_age s; filtered_df := table |}). }
  intros s1 σ1 e1 Hdf1 Hs1. apply agrees_bind.
  { assert (var_selected_gender s1 = selected_gender e1) as ->
      by (destruct Hs1 as (_ & Hsel & _); by injection Hsel).
    by apply run_select_agrees. }
  intros s2 σ2 e2 Hdf2 Hs2. apply agrees_bind.
  { assert (var_selected_department s2 = selected_department e2) as ->
      by (destruct Hs2 as (_ & Hsel & _); by injection Hsel).
    by apply run_select_agrees. }
  intros s3 σ3 e3 Hdf3 Hs3. by apply run_age_agrees.
Qed.

Lemma applyFilter_selections s table :
  applyFilter table (selections s)
  = filtered_df <$>
      apply_filters {| df := table; selected_gender := var_selected_gender s;
                       selected_department := var_selected_department s;
                       selected_age := var_selected_age s; filtered_df := table |}.
Proof. done. Qed.

(** What a run leaves in [filtered_df] is what the function on values
    returns. *)
Lemma outcome_applyFilter s σ r table :
  var_df s = Some r → σ !! r = Some table →
  outcome (run_filters s σ) = Some <$> applyFilter table (selections s).
Proof.
  intros Hr Ht. pose proof (run_filters_agrees s σ r table Hr Ht) as H.
  rewrite applyFilter_selections. unfold agrees, outcome in *.
  destruct (run_filters s σ) as [[s'|x] σ'], (apply_filters _) as [e'|y]; cbn in *;
    try done; [|by subst].
  destruct H as (_ & _ & _ & r' & -> & _ & Hv). cbn. by rewrite Hv.
Qed.

(** C9. The filter block writes into no frame.  Whatever the store holds
    before a run, the table among it, it holds unchanged after the run,
    whether the run ends normally or with an exception; [df] names the
    table as before and the selections are what they were.  When the run
    ends normally [filtered_df] names a new object, and that object is
    the view of the table under the selections; when it raises, the
    exception is the one the function on values returns.  So the result
    depends on the table and the selections only: two runs on equal
    tables with equal selections end the same way, whatever else the
    stores hold and whatever [filtered_df] named before, be it the table
    itself.  And the run does end normally on every table that has the
    three filter columns and no text for an age. *)
Theorem run_filters_pure s σ r table :
  var_df s = Some r → σ !! r = Some table →
  (∀ r0 d, σ !! r0 = Some d → (run_filters s σ).2 !! r0 = Some d) ∧
  match (run_filters s σ).1 with
  | Ok s' =>
      var_df s' = Some r ∧ selections s' = selections s ∧
      ∃ r' view,
        var_filtered_df s' = Some r' ∧ σ !! r' = None ∧
        (run_filters s σ).2 !! r' = Some view ∧
        applyFilter table (selections s) = Ok view
  | Raise x => applyFilter table (selections s) = Raise x
  end ∧
  (∀ s2 σ2 r2,
     var_df s2 = Some r2 → σ2 !! r2 = Some table → selections s2 = selections s →
     outcome (run_filters s2 σ2) = outcome (run_filters s σ)) ∧
  (filterable table → ∃ s', (run_filters s σ).1 = Ok s').
Proof.
  intros Hr Ht. pose proof (run_filters_agrees s σ r table Hr Ht) as H.
  assert (match (run_filters s σ).1 with
          | Ok s' =>
              var_df s' = Some r ∧ selections s' = selections s ∧
              ∃ r' view,
                var_filtered_df s' = Some r' ∧ σ !! r' = None ∧
                (run_filters s σ).2 !! r' = Some view ∧
                applyFilter table (selections s) = Ok view
          | Raise x => applyFilter table (selections s) = Raise x
          end) as Hout.
  { rewrite applyFilter_selections. unfold agrees in H.
    set (e0 := {| df := table; selected_gender := var_selected_gender s;
                  selected_department := var_selected_department s;
                  selected_age := var_selected_age s; filtered_df := table |}) in *.
    destruct (run_filters s σ) as [[s'|x] σ'], (apply_filters e0) as [e'|y] eqn:He;
      cbn [fst snd fmap result_fmap] in *; try done; [|by subst].
    destruct H as (Hdf & _ & Hsel & r' & Hr' & Hnew & Hv).
    split_and!; [congruence| |by exists r', (filtered_df e')].
    rewrite Hsel. by apply apply_filters_inv in He as ->. }
  split_and!.
  - intros r0 d Hd. by eapply lookup_weaken, preserving_filters.
  - exact Hout.
  - intros s2 σ2 r2 Hr2 Ht2 Hsel.
    rewrite (outcome_applyFilter _ _ _ _ Hr2 Ht2), (outcome_applyFilter _ _ _ _ Hr Ht).
    by rewrite Hsel.
  - intros Hf. destruct (run_filters s σ).1 as [s'|x]; [by eexists|].
    rewrite applyFilter_rows in Hout by done. done.
Qed.

Lemma run_filters_pure_witness :
  (run_filters aliased one_table).2 !! 1%positive = Some staff ∧
  ∃ s', (run_filters aliased one_table).1 = Ok s' ∧ var_df s' = Some 1%positive ∧
        ∃ r' view, var_filtered_df s' = Some r' ∧ r' ≠ 1%positive ∧
                   (run_filters aliased one_table).2 !! r' = Some view ∧
                   applyFilter staff (men 25 45) = Ok view.
Proof.
  destruct (run_filters_pure aliased one_table 1%positive staff eq_refl eq_refl)
    as (Hkeep & Hout & _ & Hruns).
  split; [by apply Hkeep|].
  destruct Hruns as [s' Hs']; [solve_filterable|]. exists s'. split; [done|].
  rewrite Hs' in Hout. destruct Hout as (Hdf & _ & r' & view & Hr' & Hnew & Hview & Hv).
  split; [done|]. exists r', view. split_and!; [done| |done..].
  intros ->. by vm_compute in Hnew.
Defined.

(** ** The widest filter *)

Lemma Qmin'_le_l a b : (Qmin' a b <= a)%Q.
Proof.
  unfold Qmin'. destruct (Qle_bool a b) eqn:E; [apply Qle_refl|].
  destruct (Qlt_le_dec b a) as [H|H]; [by apply Qlt_le_weak|].
  apply Qle_bool_iff in H. congruence.
Qed.

Lemma Qmin'_le_r a b : (Qmin' a b <= b)%Q.
Proof.
  unfold Qmin'. destruct (Qle_bool a b) eqn:E; [by apply Qle_bool_iff|apply Qle_refl].
Qed.

Lemma Qmax'_ge_l a b : (a <= Qmax' a b)%Q.
Proof.
  unfold Qmax'. destruct (Qle_bool a b) eqn:E; [by apply Qle_bool_iff|apply Qle_refl].
Qed.

Lemma Qmax'_ge_r a b : (b <= Qmax' a b)%Q.
Proof.
  unfold Qmax'. destruct (Qle_bool a b) eqn:E; [apply Qle_refl|].
  destruct (Qlt_le_dec b a) as [H|H]; [by apply Qlt_le_weak|].
  apply Qle_bool_iff in H. congruence.
Qed.

(** What [reduce] returns bounds the accumulator it started from and
    every number of the series. *)
Lemma reduce_bound (f : Q → Q → Q) (le : Q → Q → Prop) :
  (∀ a, le a a) → (∀ a b c, le a b → le b c → le a c) →
  (∀ a b, le (f a b) a) → (∀ a b, le (f a b) b) →
  ∀ l acc m, reduce f acc l = Ok (Some m) →
    (∀ a, acc = Some a → le m a) ∧ (∀ q, Num q ∈ l → le m q).
Proof.
  intros Hrefl Htrans Hl Hr. induction l as [|x l IH]; intros acc m H.
  - injection H as ->. split; [by intros a [= ->]|]. intros q Hq. by apply elem_of_nil in Hq.
  - destruct x as [s|q0|]; cbn in H; [done| |].
    + apply IH in H as [Hacc Hrest]. specialize (Hacc _ eq_refl). split.
      * intros a ->. cbn in Hacc. eauto.
      * intros q [[= ->]|Hq]%elem_of_cons; [|by apply Hrest].
        destruct acc as [a|]; cbn in Hacc; eauto.
    + apply IH in H as [Hacc Hrest]. split; [done|].
      intros q [[=]|Hq]%elem_of_cons. by apply Hrest.
Qed.

Lemma series_min_le l m q : series_min l = Ok (Some m) → Num q ∈ l → (m <= q)%Q.
Proof.
  intros H Hq.
  eapply (reduce_bound Qmin' Qle Qle_refl Qle_trans Qmin'_le_l Qmin'_le_r) in H as [_ H].
  by apply H.
Qed.

Lemma series_max_ge l m q : series_max l = Ok (Some m) → Num q ∈ l → (q <= m)%Q.
Proof.
  intros H Hq.
  eapply (reduce_bound Qmax' (λ a b, Qle b a)) in H as [_ H]; [by apply H|..].
  - apply Qle_refl.
  - intros a b c ? ?. by apply Qle_trans with b.
  - apply Qmax'_ge_l.
  - apply Qmax'_ge_r.
Qed.

Lemma filter_all {A} (P : A → Prop) `{∀ x, Decision (P x)} (l : list A) :
  Forall P l → filter P l = l.
Proof.
  induction 1 as [|x l Hx _ IH]; [done|].
  rewrite filter_cons, IH. by case_decide.
Qed.

Lemma stmt_select_All c e : stmt_select c (Str "All") e = Ok e.
Proof. reflexivity. Qed.

(** C2 fails where an age is missing: [min] and [max] skip the missing
    age, the comparison of line 34 is false on it, and the record is
    dropped even by the widest range. *)
Lemma full_range_drops_missing_age :
  age_min gappy = Ok (Some (inject_Z 30)) ∧
  age_max gappy = Ok (Some (inject_Z 30)) ∧
  applyFilter gappy (no_filter 30 30)
    = Ok {| columns := staff_columns;
            rows := [ record [("Gender", Str "Male"); ("Department", Str "Sales");
                              ("Age", Num 30); ("Attrition", Str "Yes")] ] |} ∧
  applyFilter gappy (no_filter 30 30) ≠ Ok gappy.
Proof. split_and!; [reflexivity..|discriminate]. Qed.

(** C2, amended. On every table whose records all have an age, the filter
    with both selection boxes on "All" and the age range from the least to
    the greatest age of the table returns the table: the same columns and
    the same records in the same order. *)
Theorem applyFilter_full_range table lo hi mn mx :
  has_column table "Age" = true →
  Forall (λ r, ∃ q, cell "Age" r = Num q) (rows table) →
  age_min table = Ok (Some mn) →
  age_max table = Ok (Some mx) →
  (inject_Z lo == mn)%Q →
  (inject_Z hi == mx)%Q →
  applyFilter table (no_filter lo hi) = Ok table.
Proof.
  intros Ha Hpop Hmin Hmax Hlo Hhi.
  unfold age_min, age_max, getattr in *.
  rewrite (getitem_has _ _ Ha) in Hmin, Hmax. cbn in Hmin, Hmax.
  unfold applyFilter, apply_filters, stmt_copy. cbn [mbind result_bind]. rewrite copy_id.
  cbn [set_filtered_df selected_gender selected_department gender department no_filter].
  rewrite stmt_select_All. cbn [mbind result_bind set_filtered_df selected_department].
  rewrite stmt_select_All. cbn [mbind result_bind]. rewrite stmt_age_rows.
  - cbn [fmap result_fmap set_filtered_df filtered_df selected_age age_range df no_filter].
    rewrite filter_all; [by destruct table|].
    apply Forall_forall. intros r Hr.
    eapply Forall_forall in Hpop as [q Hq]; [|done]. rewrite Hq. cbn [ge_bool le_bool fst snd].
    assert (Num q ∈ column table "Age") as Hin.
    { apply list_elem_of_fmap. exists r. by rewrite Hq. }
    apply andb_true_iff. rewrite !Qle_bool_iff. split.
    + rewrite Hlo. by eapply series_min_le.
    + rewrite Hhi. by eapply series_max_ge.
  - done.
  - eapply Forall_impl; [exact Hpop|]. intros r [q ->]. done.
Qed.

Lemma applyFilter_full_range_witness :
  applyFilter staff (no_filter 30 52) = Ok staff.
Proof.
  apply (applyFilter_full_range staff 30 52 (inject_Z 30) (inject_Z 52)).
  - reflexivity.
  - repeat constructor; by eexists.
  - reflexivity.
  - reflexivity.
  - reflexivity.
  - reflexivity.
Defined.

(** ** The "All" entry of the selection boxes *)

(** ["All"] is always on offer, whatever the column holds. *)
Lemma selectbox_offers_All d c opts :
  selectbox_options d c = Ok opts → head opts = Some (Str "All").
Proof.
  unfold selectbox_options. destruct (getitem d c); cbn; [|done]. by intros [= <-].
Qed.

(** A selection box either lets every record pass or lets no record pass
    whose cell is the text ["All"]: no selection means "equal to All". *)
Lemma sel_ok_All c sel r :
  cell c r = Str "All" → sel_ok c sel r = true → sel = Str "All".
Proof.
  intros Hc. unfold sel_ok. destruct (py_ne sel (Str "All")) eqn:E.
  - rewrite Hc. destruct sel as [s| |]; cbn; [|done..].
    rewrite bool_decide_eq_true. by intros <-.
  - intros _. apply py_eq_Str. unfold py_ne in E. by apply negb_false_iff in E.
Qed.

Lemma sel_ok_on_All c r : sel_ok c (Str "All") r = true.
Proof. done. Qed.

(** The argument for one selection box; [other] stands for the rest of
    the specification. *)
Lemma sentinel_hides_category c sel (other : gmap string value → bool)
    (rs : list (gmap string value)) r1 r2 :
  r1 ∈ rs → r2 ∈ rs →
  cell c r1 = Str "All" → cell c r2 ≠ Str "All" →
  other r2 = other r1 →
  filter (λ r, sel_ok c sel r && other r = true) rs
  ≠ filter (λ r, py_eq (cell c r) (Str "All") = true) rs.
Proof.
  intros H1 H2 Hc1 Hc2 Ho Heq.
  assert (r1 ∈ filter (λ r, sel_ok c sel r && other r = true) rs) as Hin.
  { rewrite Heq. apply list_elem_of_filter. split; [|done]. by apply py_eq_Str. }
  apply list_elem_of_filter in Hin as [[Hs Hor]%andb_true_iff _].
  apply sel_ok_All in Hs as ->; [|done].
  assert (r2 ∈ filter (λ r, sel_ok c (Str "All") r && other r = true) rs) as Hin.
  { apply list_elem_of_filter. split; [|done]. by rewrite sel_ok_on_All, Ho. }
  rewrite Heq in Hin. apply list_elem_of_filter in Hin as [Hin _].
  by apply py_eq_Str in Hin.
Qed.

(** C10 fails on a table whose one gender is "All": the selection "All"
    returns the whole table, which is the set of records with that gender. *)
Lemma sentinel_view_is_category :
  applyFilter only_all (no_filter 30 30) = Ok only_all ∧
  rows only_all = records_with "Gender" "All" only_all ∧
  rows only_all ≠ [].
Proof. split_and!; [reflexivity..|discriminate]. Qed.

(** C10, amended. Selecting "All" in a selection box switches the
    constraint off, and every other selection leaves out the records whose
    cell is the text "All".  So when the table holds a record whose Gender
    is "All" and a record of another Gender with the same Department and
    Age, no filter specification returns exactly the records whose Gender
    is "All"; and the same with Gender and Department exchanged. *)
Theorem sentinel_collides table spec view :
  applyFilter table spec = Ok view →
  (gender spec = Str "All" →
     ∀ r, r ∈ rows view ↔
          r ∈ rows table ∧ department_ok spec r = true ∧ age_ok spec r = true) ∧
  (gender spec ≠ Str "All" → ∀ r, r ∈ rows view → cell "Gender" r ≠ Str "All") ∧
  (department spec = Str "All" →
     ∀ r, r ∈ rows view ↔
          r ∈ rows table ∧ gender_ok spec r = true ∧ age_ok spec r = true) ∧
  (department spec ≠ Str "All" → ∀ r, r ∈ rows view → cell "Department" r ≠ Str "All") ∧
  (∀ r1 r2, r1 ∈ rows table → r2 ∈ rows table →
     cell "Gender" r1 = Str "All" → cell "Gender" r2 ≠ Str "All" →
     cell "Department" r2 = cell "Department" r1 → cell "Age" r2 = cell "Age" r1 →
     rows view ≠ records_with "Gender" "All" table) ∧
  (∀ r1 r2, r1 ∈ rows table → r2 ∈ rows table →
     cell "Department" r1 = Str "All" → cell "Department" r2 ≠ Str "All" →
     cell "Gender" r2 = cell "Gender" r1 → cell "Age" r2 = cell "Age" r1 →
     rows view ≠ records_with "Department" "All" table).
Proof.
  intros ->%applyFilter_inv. cbn [rows].
  split_and!.
  - intros Hg r. rewrite list_elem_of_filter. unfold satisfies, gender_ok. rewrite Hg.
    rewrite sel_ok_on_All, !andb_true_iff. tauto.
  - intros Hg r [Hs _]%list_elem_of_filter Hc.
    apply andb_true_iff in Hs as [[Hs _]%andb_true_iff _].
    by apply (sel_ok_All _ _ _ Hc) in Hs.
  - intros Hd r. rewrite list_elem_of_filter. unfold satisfies, department_ok. rewrite Hd.
    rewrite sel_ok_on_All, !andb_true_iff. tauto.
  - intros Hd r [Hs _]%list_elem_of_filter Hc.
    apply andb_true_iff in Hs as [[_ Hs]%andb_true_iff _].
    by apply (sel_ok_All _ _ _ Hc) in Hs.
  - intros r1 r2 H1 H2 Hc1 Hc2 Hd Ha. unfold records_with.
    erewrite list_filter_iff;
      [apply (sentinel_hides_category "Gender" (gender spec)
                (λ r, department_ok spec r && age_ok spec r) _ r1 r2); try done|].
    + unfold department_ok, age_ok, sel_ok. by rewrite Hd, Ha.
    + intros r. unfold satisfies, gender_ok. cbn. by rewrite andb_assoc.
  - intros r1 r2 H1 H2 Hc1 Hc2 Hg Ha. unfold records_with.
    erewrite list_filter_iff;
      [apply (sentinel_hides_category "Department" (department spec)
                (λ r, gender_ok spec r && age_ok spec r) _ r1 r2); try done|].
    + unfold gender_ok, age_ok, sel_ok. by rewrite Hg, Ha.
    + intros r. unfold satisfies, department_ok. cbn.
      rewrite !andb_true_iff. tauto.
Qed.

Lemma sentinel_collides_witness :
  applyFilter mixed_all (no_filter 30 30) = Ok mixed_all ∧
  rows mixed_all ≠ records_with "Gender" "All" mixed_all.
Proof.
  assert (applyFilter mixed_all (no_filter 30 30) = Ok mixed_all) as Hview
    by reflexivity.
  split; [exact Hview|].
  destruct (sentinel_collides mixed_all (no_filter 30 30) mixed_all Hview)
    as (_ & _ & _ & _ & Hne & _).
  apply (Hne (record [("Gender", Str "All"); ("Department", Str "Sales");
                      ("Age", Num 30); ("Attrition", Str "No")])
             (record [("Gender", Str "Male"); ("Department", Str "Sales");
                      ("Age", Num 30); ("Attrition", Str "Yes")])).
  - apply list_elem_of_here.
  - apply list_elem_of_further, list_elem_of_here.
  - reflexivity.
  - discriminate.
  - reflexivity.
  - reflexivity.
Defined.

(** ** Counting *)

Lemma insert_by_Permutation {A} (leb : A → A → bool) x l :
  insert_by leb x l ≡ₚ x :: l.
Proof.
  induction l as [|y l IH]; [done|]. cbn. destruct (leb x y); [done|].
  rewrite IH. apply Permutation_swap.
Qed.

Lemma sort_by_Permutation {A} (leb : A → A → bool) l : sort_by leb l ≡ₚ l.
Proof.
  unfold sort_by. induction l as [|x l IH]; [done|]. cbn.
  by rewrite insert_by_Permutation, IH.
Qed.

Lemma bump_sum k acc : sum_list (bump k acc).*2 = S (sum_list acc.*2).
Proof.
  induction acc as [|[k' n] acc IH]; [done|]. cbn.
  destruct (same_key k k'); cbn; [done|]. rewrite IH. lia.
Qed.

Lemma bump_keys k acc p : p ∈ bump k acc → p.1 = k ∨ p.1 ∈ acc.*1.
Proof.
  induction acc as [|[k' n] acc IH]; cbn.
  - intros ->%list_elem_of_singleton. by left.
  - destruct (same_key k k').
    + intros [->|H]%elem_of_cons; right; cbn; [by left|right].
      apply list_elem_of_fmap. by exists p.
    + intros [->|H]%elem_of_cons; [right; by left|].
      destruct (IH H) as [|]; [by left|right; by right].
Qed.

Lemma bump_positive k acc :
  Forall (λ p, 0 < p.2)%nat acc → Forall (λ p, 0 < p.2)%nat (bump k acc).
Proof.
  induction 1 as [|[k' n] acc Hn Hacc IH]; cbn.
  - repeat constructor.
  - destruct (same_key k k'); constructor; cbn in *; try done. lia.
Qed.

Lemma tally_acc_sum l acc :
  sum_list (foldl count_step acc l).*2
  = (sum_list acc.*2 + length (filter (λ v, isna v = false) l))%nat.
Proof.
  revert acc. induction l as [|v l IH]; intros acc; [cbn; lia|].
  rewrite filter_cons. cbn [foldl]. rewrite IH. unfold count_step.
  destruct (isna v); case_decide; try done.
  rewrite bump_sum. cbn. lia.
Qed.

Lemma tally_acc_keys l acc p :
  p ∈ foldl count_step acc l → p.1 ∈ acc.*1 ∨ (p.1 ∈ l ∧ isna p.1 = false).
Proof.
  revert acc. induction l as [|v l IH]; intros acc; cbn.
  - intros H. left. apply list_elem_of_fmap. by exists p.
  - intros [H|[H ?]]%IH; [|right; split; [by right|done]].
    unfold count_step in H. destruct (isna v) eqn:E; [by left|].
    apply list_elem_of_fmap in H as (p' & -> & H).
    apply bump_keys in H as [->|H]; [right; split; [by left|done]|by left].
Qed.

Lemma tally_acc_positive l acc :
  Forall (λ p, 0 < p.2)%nat acc → Forall (λ p, 0 < p.2)%nat (foldl count_step acc l).
Proof.
  revert acc. induction l as [|v l IH]; intros acc H; [done|]. cbn. apply IH.
  unfold count_step. destruct (isna v); [done|]. by apply bump_positive.
Qed.

(** What [value_counts] returns for any series: the counts add up to the
    number of cells that are not missing, every count is positive and
    every key is a cell of the series. *)
Lemma value_counts_spec l :
  sum_list (value_counts l).*2 = length (filter (λ v, isna v = false) l) ∧
  ∀ k n, (k, n) ∈ value_counts l → (0 < n)%nat ∧ k ∈ l ∧ k ≠ NaN.
Proof.
  unfold value_counts. split.
  - rewrite sort_by_Permutation. apply (tally_acc_sum l []).
  - intros k n H. rewrite sort_by_Permutation in H. split_and!.
    + pose proof (tally_acc_positive l [] (Forall_nil_2 _)) as Hp.
      eapply Forall_forall in Hp; [|done]. done.
    + apply (tally_acc_keys l []) in H as [H|[H _]]; [by apply elem_of_nil in H|done].
    + apply (tally_acc_keys l []) in H as [H|[_ H]]; [by apply elem_of_nil in H|].
      by intros ->.
Qed.

Lemma same_key_refl v : same_key v v = true.
Proof.
  destruct v as [s|q|]; cbn; [by apply bool_decide_eq_true| |done].
  by apply Qeq_bool_iff.
Qed.

Lemma same_key_sym a b : same_key a b = same_key b a.
Proof.
  destruct a as [s|p|], b as [t|q|]; cbn; try done.
  - apply bool_decide_ext. split; congruence.
  - destruct (Qeq_bool p q) eqn:E, (Qeq_bool q p) eqn:E'; try done.
    + apply Qeq_bool_iff in E. symmetry in E. apply Qeq_bool_iff in E. congruence.
    + apply Qeq_bool_iff in E'. symmetry in E'. apply Qeq_bool_iff in E'. congruence.
Qed.

Lemma same_key_trans a b c :
  same_key a b = true → same_key b c = true → same_key a c = true.
Proof.
  destruct a as [s|p|], b as [t|q|], c as [u|r|]; cbn; try done.
  - rewrite !bool_decide_eq_true. congruence.
  - rewrite !Qeq_bool_iff. intros -> ->. done.
Qed.

Lemma same_key_false_l a b c :
  same_key a b = true → same_key c b = false → same_key a c = false.
Proof.
  intros Hab Hcb. destruct (same_key a c) eqn:E; [|done].
  rewrite same_key_sym in E. rewrite <- Hcb. symmetry.
  by apply (same_key_trans c a b).
Qed.

Lemma occurrences_cons k v l :
  occurrences k (v :: l) = ((if same_key v k then 1 else 0) + occurrences k l)%nat.
Proof.
  unfold occurrences. rewrite filter_cons.
  destruct (same_key v k); by case_decide.
Qed.

(** The entries of [bump v acc], when the keys of [acc] are distinct: the
    entries of other keys as they were, the entry of [v]'s key with one
    more, or the new entry of [v]. *)
Lemma bump_elem v acc k n :
  distinct_keys acc → (k, n) ∈ bump v acc →
  ((k, n) ∈ acc ∧ same_key v k = false) ∨
  (∃ n0, (k, n0) ∈ acc ∧ same_key v k = true ∧ n = S n0) ∨
  (k = v ∧ n = 1%nat ∧ Forall (λ q, same_key v q.1 = false) acc).
Proof.
  induction acc as [|[k1 n1] acc IH]; cbn [bump distinct_keys].
  - intros _ [= -> ->]%list_elem_of_singleton. right. right. by repeat split.
  - intros [Hk1 Hd]. destruct (same_key v k1) eqn:E.
    + intros [[= -> ->]|Hin]%elem_of_cons.
      * right. left. exists n1. split_and!; [by left|done..].
      * left. split; [by right|].
        eapply Forall_forall in Hk1; [|done]. cbn in Hk1.
        by apply (same_key_false_l v k1 k).
    + intros [[= -> ->]|Hin]%elem_of_cons.
      * left. split; [by left|done].
      * destruct (IH Hd Hin) as [[? ?]|[(n0 & ? & ? & ?)|(? & ? & ?)]].
        -- left. split; [by right|done].
        -- right. left. exists n0. split_and!; [by right|done..].
        -- right. right. split_and!; [done..|]. by constructor.
Qed.

Lemma bump_keeps v acc p : p ∈ acc → ∃ n, (p.1, n) ∈ bump v acc.
Proof.
  induction acc as [|[k1 n1] acc IH]; [by intros ?%elem_of_nil|].
  cbn. destruct (same_key v k1) eqn:E.
  - intros [->|Hin]%elem_of_cons; [exists (S n1); by left|].
    exists p.2. right. by destruct p.
  - intros [->|Hin]%elem_of_cons; [exists n1; by left|].
    destruct (IH Hin) as [n Hn]. exists n. by right.
Qed.

Lemma bump_has v acc : ∃ k n, (k, n) ∈ bump v acc ∧ same_key v k = true.
Proof.
  induction acc as [|[k1 n1] acc IH]; cbn.
  - exists v, 1%nat. split; [by left|apply same_key_refl].
  - destruct (same_key v k1) eqn:E.
    + exists k1, (S n1). split; [by left|done].
    + destruct IH as (k & n & Hin & Hk). exists k, n. split; [by right|done].
Qed.

Lemma bump_distinct v acc : distinct_keys acc → distinct_keys (bump v acc).
Proof.
  induction acc as [|[k1 n1] acc IH]; cbn [bump distinct_keys].
  - intros _. split; [constructor|done].
  - intros [Hk1 Hd]. destruct (same_key v k1) eqn:E; cbn [distinct_keys]; [done|].
    split; [|by apply IH]. apply Forall_forall. intros [k n] Hin. cbn.
    destruct (bump_elem v acc k n Hd Hin) as [[Hin' _]|[(n0 & Hin' & _)|(-> & _)]].
    + exact (proj1 (Forall_forall _ _) Hk1 _ Hin').
    + exact (proj1 (Forall_forall _ _) Hk1 _ Hin').
    + exact E.
Qed.

Lemma tally_acc_occurrences l acc k n :
  distinct_keys acc → Forall (λ p, isna p.1 = false) acc →
  (k, n) ∈ foldl count_step acc l →
  (∃ n0, (k, n0) ∈ acc ∧ n = (n0 + occurrences k l)%nat) ∨
  (Forall (λ q, same_key k q.1 = false) acc ∧ n = occurrences k l).
Proof.
  revert acc. induction l as [|v l IH]; intros acc Hd Hna Hin.
  { left. exists n. split; [done|]. unfold occurrences. cbn. lia. }
  cbn [foldl] in Hin. rewrite occurrences_cons. unfold count_step in Hin.
  destruct (isna v) eqn:Ev.
  - destruct v; try done.
    assert (∀ k', isna k' = false → same_key NaN k' = false) as Hnan by by intros [].
    destruct (IH acc Hd Hna Hin) as [(n0 & Hn0 & ->)|[Hnew ->]].
    + left. exists n0. split; [done|].
      eapply Forall_forall in Hna; [|done]. cbn in Hna. by rewrite (Hnan _ Hna).
    + right. split; [done|].
      apply tally_acc_keys in Hin as [Hk|[_ Hk]]; cbn in Hk.
      * apply list_elem_of_fmap in Hk as (p & -> & Hp).
        eapply Forall_forall in Hna; [|done]. by rewrite (Hnan _ Hna).
      * by rewrite (Hnan _ Hk).
  - assert (Forall (λ p, isna p.1 = false) (bump v acc)) as Hna'.
    { apply Forall_forall. intros p [->|Hp]%bump_keys; [done|].
      apply list_elem_of_fmap in Hp as (p' & -> & Hp').
      exact (proj1 (Forall_forall _ _) Hna _ Hp'). }
    destruct (IH _ (bump_distinct v acc Hd) Hna' Hin) as [(n0' & Hn0 & ->)|[Hnew ->]].
    + destruct (bump_elem v acc k n0' Hd Hn0)
        as [[Hacc Hk]|[(n0 & Hacc & Hk & ->)|(-> & -> & Hn)]]; rewrite ?Hk.
      * left. by exists n0'.
      * left. exists n0. split; [done|lia].
      * right. by rewrite same_key_refl.
    + right. destruct (bump_has v acc) as (k' & n' & Hin' & Hk').
      assert (same_key k k' = false) as Hkk'
        by exact (proj1 (Forall_forall _ _) Hnew _ Hin').
      assert (same_key v k = false) as ->.
      { destruct (same_key v k) eqn:E; [|done]. rewrite <- Hkk'. symmetry.
        apply (same_key_trans k v k'); [by rewrite same_key_sym|done]. }
      split; [|done]. apply Forall_forall. intros p Hp.
      destruct (bump_keeps v acc p Hp) as [m Hm].
      exact (proj1 (Forall_forall _ _) Hnew _ Hm).
Qed.

(** Every count of [value_counts] is the number of cells with its key. *)
Lemma value_counts_occurrences l k n :
  (k, n) ∈ value_counts l → n = occurrences k l.
Proof.
  unfold value_counts. rewrite sort_by_Permutation. intros Hin.
  destruct (tally_acc_occurrences l [] k n I (Forall_nil_2 _) Hin)
    as [(n0 & Hn0 & _)|[_ ->]]; [by apply elem_of_nil in Hn0|done].
Qed.

Lemma length_filter_fmap {A B} (f : A → B) (p : B → bool) (l : list A) :
  length (filter (λ y, p y = false) (f <$> l)) = length (filter (λ x, p (f x) = false) l).
Proof.
  induction l as [|x l IH]; [done|]. cbn [fmap list_fmap].
  rewrite !filter_cons. destruct (p (f x)) eqn:E; repeat case_decide; cbn; congruence.
Qed.

Lemma valueCounts_ok d c :
  has_column d c = true → valueCounts d c = Ok (value_counts (column d c)).
Proof. intros H. unfold valueCounts. by rewrite (getitem_has _ _ H). Qed.

Lemma length_filter_fmap_true {A B} (f : A → B) (p : B → bool) (l : list A) :
  length (filter (λ y, p y = true) (f <$> l)) = length (filter (λ x, p (f x) = true) l).
Proof.
  induction l as [|x l IH]; [done|]. cbn [fmap list_fmap].
  rewrite !filter_cons. destruct (p (f x)) eqn:E; repeat case_decide; cbn; congruence.
Qed.

(** C5 fails where a cell is missing: [value_counts] leaves missing
    values out, so the counts of the two-record table add up to 1. *)
Lemma valueCounts_skips_missing :
  valueCounts gappy "Attrition" = Ok [(Str "Yes", 1%nat)] ∧
  sum_list [(Str "Yes", 1%nat)].*2 ≠ length (rows gappy).
Proof. split; [reflexivity|discriminate]. Qed.

(** C5, amended. For every view and every column, the counts of the
    mapping [valueCounts] returns add up to the number of records of the
    view whose value in the column is not missing (so to the number of
    records when no value is missing); every key is a value that occurs
    in the column, and its count is the number of records with that
    value, at least one.  And [valueCounts] returns a mapping for every
    column the view has. *)
Theorem valueCounts_sum_and_keys view c :
  (∀ counts, valueCounts view c = Ok counts →
     sum_list counts.*2
       = length (filter (λ r, isna (cell c r) = false) (rows view)) ∧
     (Forall (λ r, isna (cell c r) = false) (rows view) →
        sum_list counts.*2 = length (rows view)) ∧
     ∀ k n, (k, n) ∈ counts →
       (0 < n)%nat ∧ k ≠ NaN ∧
       (∃ r, r ∈ rows view ∧ cell c r = k) ∧
       n = length (filter (λ r, same_key (cell c r) k = true) (rows view))) ∧
  (has_column view c = true → ∃ counts, valueCounts view c = Ok counts).
Proof.
  split; [|intros Hc; eexists; by apply valueCounts_ok].
  intros counts Hcounts.
  assert (has_column view c = true) as Hc.
  { unfold valueCounts in Hcounts.
    destruct (getitem view c) eqn:Hg; [by eapply getitem_inv|done]. }
  rewrite (valueCounts_ok _ _ Hc) in Hcounts. injection Hcounts as <-.
  destruct (value_counts_spec (column view c)) as [Hsum Hkeys].
  assert (sum_list (value_counts (column view c)).*2
          = length (filter (λ r, isna (cell c r) = false) (rows view))) as Hs.
  { rewrite Hsum. unfold column. by rewrite (length_filter_fmap (cell c) isna). }
  split_and!.
  - done.
  - intros Hall. rewrite Hs. by rewrite filter_all.
  - intros k n Hin. destruct (Hkeys k n Hin) as [Hn [Hk Hna]]. split_and!; [done..| |].
    + apply list_elem_of_fmap in Hk as (r & -> & Hr). by exists r.
    + rewrite (value_counts_occurrences _ _ _ Hin). unfold occurrences, column.
      by rewrite (length_filter_fmap_true (cell c) (λ v, same_key v k)).
Qed.

Lemma valueCounts_sum_and_keys_witness :
  ∃ counts,
    valueCounts staff "Attrition" = Ok counts ∧
    sum_list counts.*2 = length (rows staff).
Proof.
  destruct (valueCounts_sum_and_keys staff "Attrition") as [Hspec Hruns].
  destruct Hruns as [counts Hc]; [reflexivity|].
  exists counts. split; [exact Hc|].
  destruct (Hspec counts Hc) as (_ & Hall & _). apply Hall. repeat constructor.
Defined.

(** The scenario of the specification: one "Yes" and two "No" in the
    whole table, one of each among the men. *)
Example valueCounts_staff :
  valueCounts staff "Attrition" = Ok [(Str "No", 2%nat); (Str "Yes", 1%nat)].
Proof. reflexivity. Qed.

Example valueCounts_staff_men :
  (applyFilter staff (men 18 60) ≫= λ view, valueCounts view "Attrition")
  = Ok [(Str "Yes", 1%nat); (Str "No", 1%nat)].
Proof. reflexivity. Qed.

(** ** Correlation *)

(** *** Multiplying by one, subtracting a float from itself *)

Lemma digits2_pos_shift (k : nat) m :
  (Zpos (digits2_pos (Nat.iter k xO m)) = Zpos (digits2_pos m) + Z.of_nat k)%Z.
Proof.
  induction k as [|k IH]; [cbn; lia|].
  rewrite Nat.iter_succ. cbn [digits2_pos]. rewrite Pos2Z.inj_succ, IH. lia.
Qed.

Lemma iter_shr_1 (k : nat) m :
  Nat.iter k shr_1 {| shr_m := Zpos (Nat.iter k xO m); shr_r := false; shr_s := false |}
  = {| shr_m := Zpos m; shr_r := false; shr_s := false |}.
Proof.
  induction k as [|k IH]; [done|].
  rewrite Nat.iter_succ_r, Nat.iter_succ. cbn [shr_1 orb]. exact IH.
Qed.

Lemma iter_pos_nat {A} (f : A → A) p x : SpecFloat.iter_pos f p x = Nat.iter (Pos.to_nat p) f x.
Proof.
  revert x. induction p as [p IH|p IH|]; intros x; cbn [SpecFloat.iter_pos].
  - rewrite !IH. change (f x) with (Nat.iter 1 f x). rewrite <- !Nat.iter_add.
    f_equal. lia.
  - rewrite !IH, <- Nat.iter_add. f_equal. lia.
  - done.
Qed.

Lemma SFmul_one_l s m e :
  bounded prec emax m e = true →
  SFmul prec emax (S754_finite false 4503599627370496 (-52)%Z) (S754_finite s m e)
  = S754_finite s m e.
Proof.
  intros [Hc Hb]%andb_prop. unfold canonical_mantissa in Hc. apply Z.eqb_eq in Hc.
  unfold SFmul. cbn [xorb].
  change (Pos.mul 4503599627370496 m) with (Nat.iter 52 xO m).
  unfold binary_round_aux, shr_fexp. unfold Zdigits2 at 1.
  rewrite (digits2_pos_shift 52).
  replace (Z.pos (digits2_pos m) + Z.of_nat 52 + (-52 + e))%Z
    with (Z.pos (digits2_pos m) + e)%Z by lia.
  rewrite Hc. replace (e - (-52 + e))%Z with 52%Z by lia.
  cbn [shr shr_record_of_loc]. rewrite iter_pos_nat.
  change (Pos.to_nat 52) with 52%nat. rewrite iter_shr_1.
  cbn [shr_m loc_of_shr_record round_nearest_even Zdigits2].
  replace (-52 + e + 52)%Z with e by lia. rewrite Hc, Z.sub_diag.
  cbn [shr shr_m]. by rewrite Hb.
Qed.

Lemma SFsub_diag s m e :
  SFsub prec emax (S754_finite s m e) (S754_finite s m e) = S754_zero false.
Proof.
  unfold SFsub. rewrite Z.min_id. unfold shl_align.
  replace (e - e)%Z with 0%Z by lia. cbn [fst].
  set (z := cond_Zopp s (Z.pos m)). by replace (z - z)%Z with 0%Z by lia.
Qed.

(** *** Zeros and NaN in float64 arithmetic *)

Lemma Prim2SF_nan x : Prim2SF x = S754_nan → x = nan.
Proof. intros H. apply Prim2SF_inj. by rewrite H. Qed.

Lemma Prim2SF_zero : Prim2SF 0 = S754_zero false.
Proof. reflexivity. Qed.

Lemma Fzero_0 : Fzero 0.
Proof. by exists false. Qed.

Lemma isfinite_cases x :
  isfinite x = true →
  (∃ s, Prim2SF x = S754_zero s) ∨
  (∃ s m e, Prim2SF x = S754_finite s m e ∧ bounded prec emax m e = true).
Proof.
  unfold isfinite. pose proof (Prim2SF_valid x) as Hv.
  destruct (Prim2SF x) as [s|s| |s m e]; try done; intros _; [left|right]; eauto.
Qed.

Lemma add_nan_r x : (x + nan)%float = nan.
Proof.
  apply Prim2SF_nan. rewrite add_spec. change (Prim2SF nan) with S754_nan.
  by destruct (Prim2SF x).
Qed.

Lemma add_nan_l x : (nan + x)%float = nan.
Proof. apply Prim2SF_nan. by rewrite add_spec. Qed.

Lemma sub_nan_r x : (x - nan)%float = nan.
Proof.
  apply Prim2SF_nan. rewrite sub_spec. change (Prim2SF nan) with S754_nan.
  by destruct (Prim2SF x).
Qed.

Lemma mul_nan_l x : (nan * x)%float = nan.
Proof. apply Prim2SF_nan. by rewrite mul_spec. Qed.

Lemma mul_nan_r x : (x * nan)%float = nan.
Proof.
  apply Prim2SF_nan. rewrite mul_spec. change (Prim2SF nan) with S754_nan.
  by destruct (Prim2SF x).
Qed.

Lemma div_nan_r x : (x / nan)%float = nan.
Proof.
  apply Prim2SF_nan. rewrite div_spec. change (Prim2SF nan) with S754_nan.
  by destruct (Prim2SF x).
Qed.

Lemma mul_zero_r x y : Fzero y → Fzero (x * y) ∨ (x * y)%float = nan.
Proof.
  intros [s Hy]. unfold Fzero. rewrite mul_spec, Hy.
  destruct (Prim2SF x) as [sx|sx| |sx m e] eqn:Hx; cbn;
    first [left; by eexists | right; apply Prim2SF_nan; by rewrite mul_spec, Hx, Hy].
Qed.

Lemma mul_zero_l x y : Fzero x → Fzero (x * y) ∨ (x * y)%float = nan.
Proof.
  intros [s Hx]. unfold Fzero. rewrite mul_spec, Hx.
  destruct (Prim2SF y) as [sy|sy| |sy m e] eqn:Hy; cbn;
    first [left; by eexists | right; apply Prim2SF_nan; by rewrite mul_spec, Hx, Hy].
Qed.

Lemma mul_zero_zero x y : Fzero x → Fzero y → Fzero (x * y).
Proof. intros [s Hx] [t Hy]. unfold Fzero. rewrite mul_spec, Hx, Hy. by eexists. Qed.

Lemma mul_zero_finite x y : Fzero x → isfinite y = true → Fzero (x * y).
Proof.
  intros [s Hx] Hy. unfold Fzero, isfinite in *. rewrite mul_spec, Hx.
  destruct (Prim2SF y); try done; by eexists.
Qed.

Lemma add_zero_zero x y : Fzero x → Fzero y → Fzero (x + y).
Proof.
  intros [s Hx] [t Hy]. unfold Fzero. rewrite add_spec, Hx, Hy.
  destruct s, t; by eexists.
Qed.

Lemma sqrt_zero x : Fzero x → Fzero (sqrt x).
Proof. intros [s Hx]. unfold Fzero. rewrite sqrt_spec, Hx. by eexists. Qed.

Lemma eqb_zero x : Fzero x → (x =? 0)%float = true.
Proof. intros [s Hx]. by rewrite FloatAxioms.eqb_spec, Hx. Qed.

(** Adding a zero to the mean leaves the deviation of [c] a zero. *)
Lemma sub_add_zero c m z : Fzero (c - m) → Fzero z → Fzero (c - (m + z)).
Proof.
  intros [s Hs] [t Hz]. unfold Fzero in *.
  rewrite sub_spec in Hs. rewrite sub_spec, add_spec, Hz.
  destruct (Prim2SF m) as [sm|sm| |sm mm em] eqn:Hm.
  - destruct (Prim2SF c) as [sc|sc| |sc mc ec] eqn:Hc; cbn in Hs; try done.
    destruct sm, t, sc; by eexists.
  - destruct (Prim2SF c) as [sc|[]| |sc mc ec]; cbn in Hs; by destruct sm.
  - destruct (Prim2SF c); by cbn in Hs.
  - change (SF64add (S754_finite sm mm em) (S754_zero t)) with (S754_finite sm mm em).
    by eexists.
Qed.

Lemma sub_zero_r c : isfinite c = true → (c - 0)%float = c.
Proof.
  intros Hc. apply Prim2SF_inj. rewrite sub_spec, Prim2SF_zero.
  unfold isfinite in Hc. destruct (Prim2SF c) as [[]|s| |s m e]; done.
Qed.

Lemma mul_one_l c : isfinite c = true → (1 * c)%float = c.
Proof.
  intros [[s Hc]|(s & m & e & Hc & Hb)]%isfinite_cases;
    apply Prim2SF_inj; rewrite mul_spec, Hc.
  - done.
  - change (Prim2SF 1) with (S754_finite false 4503599627370496 (-52)%Z).
    by apply SFmul_one_l.
Qed.

(** After the first observation [c] the mean is [c]. *)
Lemma sub_first c : isfinite c = true → Fzero (c - (0 + c)).
Proof.
  intros [[s Hc]|(s & m & e & Hc & Hb)]%isfinite_cases; unfold Fzero;
    rewrite sub_spec, add_spec, Hc, Prim2SF_zero.
  - destruct s; by eexists.
  - change (SF64add (S754_zero false) (S754_finite s m e)) with (S754_finite s m e).
    unfold SF64sub. rewrite SFsub_diag. by eexists.
Qed.

Lemma of_nobs_1 : (1 / of_nobs 1)%float = 1%float.
Proof. reflexivity. Qed.

(** *** A column that never varies *)

Lemma flat_step c n m s :
  isfinite c = true → flat c n m s →
  let n' := (n + 1)%Z in
  let d := (c - m)%float in
  let m' := (m + 1 / of_nobs n' * d)%float in
  flat c n' m' (s + (c - m') * d).
Proof.
  intros Hc [(-> & -> & ->)|[Hn [[Hm Hs]|[-> ->]]]]; cbv zeta; right.
  - split; [lia|]. left.
    change (0 + 1)%Z with 1%Z. rewrite of_nobs_1, (sub_zero_r c Hc), (mul_one_l c Hc).
    pose proof (sub_first c Hc) as Hz. split; [done|].
    by apply add_zero_zero, mul_zero_finite; [apply Fzero_0|..].
  - split; [lia|].
    destruct (mul_zero_r (1 / of_nobs (n + 1)) (c - m) Hm) as [Hz|Hz].
    + left. pose proof (sub_add_zero c m _ Hm Hz) as Hm'. split; [done|].
      by apply add_zero_zero, mul_zero_zero.
    + right. rewrite Hz, add_nan_r, sub_nan_r, mul_nan_l, add_nan_r. done.
  - split; [lia|]. right. by rewrite add_nan_l, sub_nan_r, mul_nan_l, add_nan_r.
Qed.

Lemma welford_flat_x c obs w :
  isfinite c = true → Forall (λ v, v.1 = c) obs →
  flat c (nobs w) (meanx w) (ssqdmx w) →
  let w' := foldl welford_step w obs in flat c (nobs w') (meanx w') (ssqdmx w').
Proof.
  intros Hc Hall. revert w. induction Hall as [|[vx vy] obs Hv _ IH]; intros w Hw; [done|].
  cbn in Hv. subst vx. cbn [foldl]. apply IH. cbn. by apply flat_step.
Qed.

Lemma welford_flat_y c obs w :
  isfinite c = true → Forall (λ v, v.2 = c) obs →
  flat c (nobs w) (meany w) (ssqdmy w) →
  let w' := foldl welford_step w obs in flat c (nobs w') (meany w') (ssqdmy w').
Proof.
  intros Hc Hall. revert w. induction Hall as [|[vx vy] obs Hv _ IH]; intros w Hw; [done|].
  cbn in Hv. subst vy. cbn [foldl]. apply IH. cbn. by apply flat_step.
Qed.

Lemma flat_no_moments c : flat c 0 0 0.
Proof. by left. Qed.

Lemma quotient_nan_l w : Fzero (ssqdmx w) ∨ ssqdmx w = nan → quotient w = nan.
Proof.
  intros Hs. unfold quotient. destruct (nobs w <? 1)%Z; [done|].
  assert (Fzero (ssqdmx w * ssqdmy w) ∨ (ssqdmx w * ssqdmy w)%float = nan) as [Hz| ->].
  { destruct Hs as [Hs| ->]; [by apply mul_zero_l|right; apply mul_nan_l]. }
  - by rewrite (eqb_zero _ (sqrt_zero _ Hz)).
  - change (sqrt nan) with nan. change (nan =? 0)%float with false. apply div_nan_r.
Qed.

Lemma quotient_nan_r w : Fzero (ssqdmy w) ∨ ssqdmy w = nan → quotient w = nan.
Proof.
  intros Hs. unfold quotient. destruct (nobs w <? 1)%Z; [done|].
  assert (Fzero (ssqdmx w * ssqdmy w) ∨ (ssqdmx w * ssqdmy w)%float = nan) as [Hz| ->].
  { destruct Hs as [Hs| ->]; [by apply mul_zero_r|right; apply mul_nan_r]. }
  - by rewrite (eqb_zero _ (sqrt_zero _ Hz)).
  - change (sqrt nan) with nan. change (nan =? 0)%float with false. apply div_nan_r.
Qed.

Lemma flat_quotient c n m s : flat c n m s → Fzero s ∨ s = nan.
Proof. intros [(_ & _ & ->)|[_ [[_ Hs]|[_ ->]]]]; [left; apply Fzero_0|by left|by right]. Qed.

Lemma pearson_nan_l c obs :
  isfinite c = true → Forall (λ v, v.1 = c) obs → pearson obs = nan.
Proof.
  intros Hc Hall. apply quotient_nan_l, (flat_quotient c (nobs (welford obs)) (meanx (welford obs))).
  apply (welford_flat_x c obs no_moments Hc Hall), flat_no_moments.
Qed.

Lemma pearson_nan_r c obs :
  isfinite c = true → Forall (λ v, v.2 = c) obs → pearson obs = nan.
Proof.
  intros Hc Hall. apply quotient_nan_r, (flat_quotient c (nobs (welford obs)) (meany (welford obs))).
  apply (welford_flat_y c obs no_moments Hc Hall), flat_no_moments.
Qed.

Lemma pearson_nil : pearson [] = nan.
Proof. reflexivity. Qed.

(** *** The observations of two columns *)

Lemma to_float_proper p q : (p == q)%Q → to_float p = to_float q.
Proof. intros H. unfold to_float. by rewrite (Qred_complete _ _ H). Qed.

Lemma observations_inv xs ys v :
  v ∈ observations xs ys →
  ∃ p q, Num p ∈ xs ∧ Num q ∈ ys ∧ v = (to_float p, to_float q) ∧
         isfinite v.1 = true ∧ isfinite v.2 = true.
Proof.
  unfold observations. revert ys. induction xs as [|x xs IH]; intros [|y ys]; cbn;
    try by intros ?%elem_of_nil.
  assert (v ∈ omap (λ p, match p with
             | (Num x, Num y) =>
                 let vx := to_float x in
                 let vy := to_float y in
                 if isfinite vx && isfinite vy then Some (vx, vy) else None
             | _ => None
             end) (zip xs ys) →
          ∃ p q, Num p ∈ x :: xs ∧ Num q ∈ y :: ys ∧ v = (to_float p, to_float q) ∧
                 isfinite v.1 = true ∧ isfinite v.2 = true) as Hrec.
  { intros (p & q & Hp & Hq & Hv & H1 & H2)%IH. exists p, q. split_and!; [by right|by right|done..]. }
  destruct x as [|p|], y as [|q|]; try done. cbn zeta.
  destruct (isfinite (to_float p)) eqn:Ep; [|done].
  destruct (isfinite (to_float q)) eqn:Eq; [|done]. cbn.
  intros [->|Hv]%elem_of_cons; [|by apply Hrec].
  exists p, q. split_and!; [by left|by left|done..].
Qed.

Lemma constant_observations_l xs ys :
  constant xs → pearson (observations xs ys) = nan.
Proof.
  intros Hc. destruct (observations xs ys) as [|v obs] eqn:E; [apply pearson_nil|].
  assert (v ∈ observations xs ys) as Hv by (rewrite E; by left).
  destruct (observations_inv _ _ _ Hv) as (p & q & Hp & _ & -> & Hf & _).
  apply (pearson_nan_l (to_float p)); [done|].
  apply Forall_forall. intros u Hu. rewrite <- E in Hu.
  destruct (observations_inv _ _ _ Hu) as (p' & q' & Hp' & _ & -> & _). cbn.
  apply to_float_proper. by apply Hc.
Qed.

Lemma constant_observations_r xs ys :
  constant ys → pearson (observations xs ys) = nan.
Proof.
  intros Hc. destruct (observations xs ys) as [|v obs] eqn:E; [apply pearson_nil|].
  assert (v ∈ observations xs ys) as Hv by (rewrite E; by left).
  destruct (observations_inv _ _ _ Hv) as (p & q & _ & Hq & -> & _ & Hf).
  apply (pearson_nan_r (to_float q)); [done|].
  apply Forall_forall. intros u Hu. rewrite <- E in Hu.
  destruct (observations_inv _ _ _ Hu) as (p' & q' & _ & Hq' & -> & _). cbn.
  apply to_float_proper. by apply Hc.
Qed.

(** *** A column against itself *)







(** *** Columns and entries *)

Lemma pearson_of_constant_l xs ys : constant xs → pearson_of xs ys = nan.
Proof. apply constant_observations_l. Qed.

Lemma pearson_of_constant_r xs ys : constant ys → pearson_of xs ys = nan.
Proof. apply constant_observations_r. Qed.

Lemma constant_short (col : list value) : (length col < 2)%nat → constant col.
Proof.
  destruct col as [|x [|y col]]; cbn; [| |lia].
  - intros _ p q Hp. by apply elem_of_nil in Hp.
  - intros _ p q <-%list_elem_of_singleton [= ->]%list_elem_of_singleton. done.
Qed.

(** The entries of the matrix, by position. *)
Lemma coefficient_corr d i j :
  coefficient (corr d) i j =
    if decide (i < length (column_names d) ∧ j < length (column_names d))%nat
    then Some (corr_entry (column d <$> column_names d) i j)
    else None.
Proof.
  unfold coefficient, corr. cbn [entries]. rewrite list_lookup_fmap.
  case_decide as H.
  - destruct H as [Hi Hj]. rewrite (lookup_seq_lt _ _ _ Hi). cbn.
    by rewrite list_lookup_fmap, (lookup_seq_lt _ _ _ Hj).
  - destruct (decide (i < length (column_names d))%nat) as [Hi|Hi].
    + rewrite (lookup_seq_lt _ _ _ Hi). cbn. rewrite list_lookup_fmap.
      rewrite lookup_seq_ge; [done|lia].
    + rewrite lookup_seq_ge; [done|lia].
Qed.

(** The entry at [(i, j)] is computed from the later of the two columns
    against the earlier. *)
Lemma corr_entry_pearson d i j a b :
  column_names d !! i = Some a → column_names d !! j = Some b →
  corr_entry (column d <$> column_names d) i j =
    if decide (j ≤ i)%nat then pearson_of (column d a) (column d b)
    else pearson_of (column d b) (column d a).
Proof.
  intros Ha Hb. unfold corr_entry.
  assert (∀ k c, column_names d !! k = Some c →
            (column d <$> column_names d) !!! k = column d c) as Hcol.
  { intros k c Hk. apply list_lookup_total_correct. by rewrite list_lookup_fmap, Hk. }
  case_decide as Hle.
  - by rewrite (Nat.max_l _ _ Hle), (Nat.min_r _ _ Hle), (Hcol _ _ Ha), (Hcol _ _ Hb).
  - rewrite Nat.max_r, Nat.min_l by lia. by rewrite (Hcol _ _ Ha), (Hcol _ _ Hb).
Qed.

Lemma coefficient_pearson view i j a b :
  numeric_names view !! i = Some a → numeric_names view !! j = Some b →
  coefficient (correlationMatrix view) i j =
    Some (if decide (j ≤ i)%nat then pearson_of (column view a) (column view b)
          else pearson_of (column view b) (column view a)).
Proof.
  intros Ha Hb. unfold correlationMatrix. rewrite coefficient_corr.
  rewrite decide_True by (split; by eapply lookup_lt_Some).
  by rewrite (corr_entry_pearson _ _ _ a b).
Qed.






Lemma measures_C_constant : constant (column measures "C").
Proof.
  intros p q Hp Hq. cbn in Hp, Hq.
  assert (∀ x, Num x ∈ [Num 5; Num 5; Num 5] → x = 5%Q) as Hfive.
  { intros x Hx. repeat (apply elem_of_cons in Hx as [[= ->]|Hx]; [done|]).
    by apply elem_of_nil in Hx. }
  by rewrite (Hfive p Hp), (Hfive q Hq).
Defined.


(** On the sample table the diagonal entry of a column that varies, and
    the coefficient of two columns that agree, are 1. *)
Example correlationMatrix_measures :
  diagonal (column measures "A") = 1%float ∧
  coefficient (correlationMatrix measures) 0 0 = Some 1%float ∧
  coefficient (correlationMatrix measures) 0 1 = Some 1%float.
Proof. by vm_compute. Qed.

(** The conversion of the cells: one tenth and ten to the 200. *)
Example to_float_samples :
  Prim2SF (to_float (1 # 10)) = S754_finite false 7205759403792794 (-56) ∧
  Prim2SF (to_float (inject_Z (10 ^ 200))) = S754_finite false 5883593420661338 612 ∧
  to_float 30 = 30%float.
Proof. by vm_compute. Qed.

Lemma length_column view c : length (column view c) = length (rows view).
Proof. apply length_fmap. Qed.

(** C3 fails as stated: the marker the matrix holds for a view of one
    record is NaN itself, a float like every other entry. *)
Lemma undefined_marker_is_nan :
  coefficient (correlationMatrix single) 0 0 = Some nan ∧
  ¬ ∃ marker, coefficient (correlationMatrix single) 0 0 = Some marker ∧ marker ≠ nan.
Proof.
  assert (coefficient (correlationMatrix single) 0 0 = Some nan) as E by by vm_compute.
  split; [exact E|]. rewrite E. intros (marker & [= <-] & H). by apply H.
Qed.

(** C3, amended. [correlationMatrix] returns a matrix for every view, and
    in it the coefficient of two numeric columns is NaN when the view has
    fewer than two records and when one of the two columns has no
    variance: the undefined coefficient is an entry of the matrix, not an
    exception, and the entry is the float NaN. *)
Theorem correlationMatrix_undefined view i j a b :
  numeric_names view !! i = Some a →
  numeric_names view !! j = Some b →
  (length (rows view) < 2)%nat ∨ constant (column view a) ∨ constant (column view b) →
  coefficient (correlationMatrix view) i j = Some nan.
Proof.
  intros Ha Hb Hu. rewrite (coefficient_pearson _ _ _ a b) by done. f_equal.
  assert (constant (column view a) ∨ constant (column view b)) as [Hc|Hc].
  { destruct Hu as [Hshort|Hu]; [|done]. left. apply constant_short.
    by rewrite length_column. }
  - case_decide; [by apply pearson_of_constant_l|by apply pearson_of_constant_r].
  - case_decide; [by apply pearson_of_constant_r|by apply pearson_of_constant_l].
Qed.

Lemma correlationMatrix_undefined_witness :
  coefficient (correlationMatrix single) 0 0 = Some nan ∧
  coefficient (correlationMatrix measures) 0 2 = Some nan.
Proof.
  split.
  - apply (correlationMatrix_undefined single 0 0 "Age" "Age"); [reflexivity..|].
    left. cbn. lia.
  - apply (correlationMatrix_undefined measures 0 2 "A" "C"); [reflexivity..|].
    right. right. apply measures_C_constant.
Defined.

(** ** The page *)

Lemma groupedValueCounts_ok d g c :
  has_column d g = true → has_column d c = true →
  groupedValueCounts d g c
  = Ok (unstack_fillna ((λ k, (k, value_counts (group_cells (column d g) (column d c) k)))
                          <$> sorted_keys (column d g))).
Proof.
  intros Hg Hc. unfold groupedValueCounts, groupby_value_counts.
  by rewrite (getitem_has _ _ Hg), (getitem_has _ _ Hc).
Qed.

Lemma px_histogram_ok d x color nbins :
  has_column d x = true → has_column d color = true →
  px_histogram d x color nbins = Ok (histogram (column d x) (column d color) nbins).
Proof.
  intros Hx Hc. unfold px_histogram, px_column.
  by rewrite (getitem_has _ _ Hx), (getitem_has _ _ Hc).
Qed.

Lemma px_box_ok d x y :
  has_column d x = true → has_column d y = true →
  px_box d x y = Ok (box (column d x) (column d y)).
Proof.
  intros Hx Hy. unfold px_box, px_column.
  by rewrite (getitem_has _ _ Hx), (getitem_has _ _ Hy).
Qed.

Lemma view_overtime_ok d :
  has_column d "Attrition" = true → view_overtime d = Ok (overtime_element d).
Proof.
  intros Ha. unfold view_overtime, overtime_element, view_histogram.
  destruct (has_column d "OverTime") eqn:Ho; [|done].
  by rewrite (px_histogram_ok _ _ _ _ Ho Ha).
Qed.

Lemma view_heatmap_ok d :
  numeric_names d ≠ [] → view_heatmap d = Ok (chart (heatmap (correlationMatrix d))).
Proof.
  unfold view_heatmap. change (labels (correlationMatrix d)) with (numeric_names d).
  by destruct (numeric_names d).
Qed.

(** On a frame with the columns of the views and a numeric column no view
    raises: the page has the nineteen figures and what the last view
    adds. *)
Lemma render_views d :
  complete d → numeric_names d ≠ [] →
  render views d
  = ((page (zip (take 19 views) (drawn d))
        ++ [subheader "20. Overtime vs Attrition"; overtime_element d])%list, None).
Proof.
  intros Hc Hn. unfold complete, required_columns in Hc.
  repeat match goal with
         | H : Forall _ (_ :: _) |- _ => apply Forall_cons in H as [? H]
         end.
  unfold views. cbn [render body].
  rewrite (view_heatmap_ok _ Hn).
  unfold view_counts_bar, view_counts_pie, view_grouped, view_histogram, view_box.
  rewrite !valueCounts_ok, !groupedValueCounts_ok, !px_histogram_ok, !px_box_ok,
    view_overtime_ok by done.
  reflexivity.
Qed.

(** What [int] returns is on the zero side of the number: an integer
    above the number is above its truncation, and one below is below. *)
Lemma quot_le_of_le (a z : Z) (b : positive) :
  (a <= z * Zpos b)%Z → (Z.quot a (Zpos b) <= z)%Z.
Proof.
  intros H. pose proof (Z.quot_rem' a (Zpos b)) as Hq.
  destruct (Z_lt_le_dec a 0) as [Hneg|Hpos].
  - pose proof (Z.rem_bound_pos_neg a (Zpos b) ltac:(lia) ltac:(lia)). nia.
  - pose proof (Z.rem_bound_pos_pos a (Zpos b) ltac:(lia) Hpos). nia.
Qed.

Lemma quot_ge_of_ge (a z : Z) (b : positive) :
  (z * Zpos b <= a)%Z → (z <= Z.quot a (Zpos b))%Z.
Proof.
  intros H. pose proof (Z.quot_rem' a (Zpos b)) as Hq.
  destruct (Z_lt_le_dec a 0) as [Hneg|Hpos].
  - pose proof (Z.rem_bound_pos_neg a (Zpos b) ltac:(lia) ltac:(lia)). nia.
  - pose proof (Z.rem_bound_pos_pos a (Zpos b) ltac:(lia) Hpos). nia.
Qed.

Lemma int_le_integer q z k :
  int (Some q) = Ok k → (q <= inject_Z z)%Q → (k <= z)%Z.
Proof.
  intros [= <-] H. apply quot_le_of_le. unfold Qle in H. cbn in H. lia.
Qed.

Lemma int_ge_integer q z k :
  int (Some q) = Ok k → (inject_Z z <= q)%Q → (z <= k)%Z.
Proof.
  intros [= <-] H. apply quot_ge_of_ge. unfold Qle in H. cbn in H. lia.
Qed.

Lemma reduce_total f l acc :
  Forall not_text l → is_Some acc ∨ (∃ q, Num q ∈ l) →
  ∃ m, reduce f acc l = Ok (Some m).
Proof.
  intros Hl. revert acc. induction Hl as [|x l Hx _ IH]; intros acc Hsome.
  - destruct Hsome as [[m ->]|[q Hq]]; [by exists m|]. by apply elem_of_nil in Hq.
  - destruct x as [s|q0|]; [done| |]; cbn.
    + apply IH. left. by eexists.
    + apply IH. destruct Hsome as [?|[q Hq]]; [by left|right].
      apply elem_of_cons in Hq as [[=]|Hq]. by exists q.
Qed.

(** [min] and [max] return one of the cells. *)
Lemma reduce_pick f l acc m :
  (∀ a b, f a b = a ∨ f a b = b) →
  reduce f acc l = Ok (Some m) → acc = Some m ∨ Num m ∈ l.
Proof.
  intros Hf. revert acc. induction l as [|x l IH]; intros acc; cbn.
  - intros [= ->]. by left.
  - destruct x as [s|q|]; [done| |].
    + intros [[= <-]|H]%IH; [|right; by right].
      destruct acc as [a|]; cbn; [|right; by left].
      destruct (Hf a q) as [-> | ->]; [by left|right; by left].
    + intros [?|?]%IH; [by left|right; by right].
Qed.

Lemma Qmin'_pick a b : Qmin' a b = a ∨ Qmin' a b = b.
Proof. unfold Qmin'. destruct (Qle_bool a b); auto. Qed.

Lemma Qmax'_pick a b : Qmax' a b = a ∨ Qmax' a b = b.
Proof. unfold Qmax'. destruct (Qle_bool a b); auto. Qed.

Lemma validate_int_bounds_ok z :
  (MIN_SAFE_INTEGER <= z <= MAX_SAFE_INTEGER)%Z → validate_int_bounds z = Ok ().
Proof.
  unfold validate_int_bounds. intros [H1 H2].
  destruct (Z.ltb_spec z MIN_SAFE_INTEGER); [lia|].
  destruct (Z.ltb_spec MAX_SAFE_INTEGER z); [lia|done].
Qed.

Lemma safe_25_45 :
  (MIN_SAFE_INTEGER <= 25 <= MAX_SAFE_INTEGER)%Z ∧ (MIN_SAFE_INTEGER <= 45 <= MAX_SAFE_INTEGER)%Z.
Proof. by vm_compute. Qed.

Lemma slider_ok lo hi :
  (MIN_SAFE_INTEGER <= lo <= MAX_SAFE_INTEGER)%Z →
  (MIN_SAFE_INTEGER <= hi <= MAX_SAFE_INTEGER)%Z →
  slider lo hi (25, 45)%Z = Ok ().
Proof.
  intros Hlo Hhi. destruct safe_25_45 as [H25 H45]. unfold slider. cbn [fst snd].
  rewrite !validate_int_bounds_ok; [done|lia..].
Qed.

(** The slider refuses a table with an age beyond the integers that
    JavaScript holds exactly. *)
Lemma slider_raises lo hi :
  (MAX_SAFE_INTEGER < hi)%Z → slider lo hi (25, 45)%Z = Raise StreamlitAPIException.
Proof.
  intros Hhi. unfold slider, validate_int_bounds. cbn [fst snd].
  destruct (Z.ltb_spec MAX_SAFE_INTEGER (45 `max` ((lo `min` hi) `max` hi))) as [_|?]; [|lia].
  repeat (destruct (_ <? _)%Z; cbn [mbind result_bind]; try reflexivity).
Qed.

(** The sidebar is drawn on a table with the filter columns in which some
    record has an age and every age is one the slider can hold. *)
Lemma sidebar_ok table :
  filterable table → (∃ q, Num q ∈ column table "Age") →
  Forall safe_age (column table "Age") →
  sidebar table = Ok ().
Proof.
  intros [Hg Hd Ha Hn] Hage Hsafe.
  unfold sidebar, selectbox_options, slider_bounds, age_min, age_max, getattr.
  rewrite (getitem_has _ _ Hg), (getitem_has _ _ Hd), (getitem_has _ _ Ha).
  cbn [mbind result_bind mret result_ret].
  assert (Forall not_text (column table "Age")) as Hn' by by apply Forall_fmap.
  destruct (reduce_total Qmin' _ None Hn' (or_intror Hage)) as [mn Hmn].
  destruct (reduce_total Qmax' _ None Hn' (or_intror Hage)) as [mx Hmx].
  unfold series_min, series_max. rewrite Hmn, Hmx.
  cbn [mbind result_bind mret result_ret int fst snd].
  assert (∀ m, Num m ∈ column table "Age" →
            (MIN_SAFE_INTEGER <= Z.quot (Qnum m) (Zpos (Qden m)) <= MAX_SAFE_INTEGER)%Z)
    as Hint.
  { intros m Hm. apply (proj1 (Forall_forall _ _) Hsafe) in Hm as [H1 H2]. split.
    - by apply (int_ge_integer m).
    - by apply (int_le_integer m). }
  apply slider_ok; apply Hint.
  - by destruct (reduce_pick _ _ _ _ Qmin'_pick Hmn) as [[=]|?].
  - by destruct (reduce_pick _ _ _ _ Qmax'_pick Hmx) as [[=]|?].
Qed.

(** One run on a table that the sidebar and the filter block accept and
    that has the columns of the views: no exception, and the whole
    page. *)
Lemma script_page table spec :
  filterable table → (∃ q, Num q ∈ column table "Age") →
  Forall safe_age (column table "Age") →
  complete table → numeric_names table ≠ [] →
  ∃ view,
    applyFilter table spec = Ok view ∧
    script table spec
    = ((page (zip (take 19 views) (drawn view))
          ++ [subheader "20. Overtime vs Attrition"; overtime_element view])%list, None).
Proof.
  intros Hf Hage Hsafe Hc Hn. eexists. split; [by apply applyFilter_rows|].
  unfold script. rewrite (sidebar_ok _ Hf Hage Hsafe). cbn [mbind result_bind].
  rewrite applyFilter_rows by done. by apply render_views.
Qed.

Lemma valueCounts_inv d c x : valueCounts d c = Ok x → has_column d c = true.
Proof.
  unfold valueCounts. destruct (getitem d c) eqn:E; [|done]. intros _. by eapply getitem_inv.
Qed.

Lemma groupedValueCounts_inv d g c x :
  groupedValueCounts d g c = Ok x → has_column d g = true ∧ has_column d c = true.
Proof.
  unfold groupedValueCounts, groupby_value_counts.
  destruct (getitem d g) eqn:Eg; [|done]. destruct (getitem d c) eqn:Ec; [|done].
  intros _. split; by eapply getitem_inv.
Qed.

Lemma px_histogram_inv d x color nbins f :
  px_histogram d x color nbins = Ok f → has_column d x = true ∧ has_column d color = true.
Proof.
  unfold px_histogram, px_column.
  destruct (getitem d x) eqn:Ex; [|done]. destruct (getitem d color) eqn:Ec; [|done].
  intros _. split; by eapply getitem_inv.
Qed.

Lemma px_box_inv d x y f :
  px_box d x y = Ok f → has_column d x = true ∧ has_column d y = true.
Proof.
  unfold px_box, px_column.
  destruct (getitem d x) eqn:Ex; [|done]. destruct (getitem d y) eqn:Ey; [|done].
  intros _. split; by eapply getitem_inv.
Qed.

Lemma view_grouped_inv g d el : view_grouped g d = Ok el → has_column d g = true.
Proof.
  unfold view_grouped. destruct (groupedValueCounts d g "Attrition") eqn:E; [|done].
  intros _. by apply groupedValueCounts_inv in E as [? _].
Qed.

Lemma view_histogram_inv x nbins d el : view_histogram x nbins d = Ok el → has_column d x = true.
Proof.
  unfold view_histogram. destruct (px_histogram d x "Attrition" nbins) eqn:E; [|done].
  intros _. by apply px_histogram_inv in E as [? _].
Qed.

Lemma view_box_inv y d el : view_box y d = Ok el → has_column d y = true.
Proof.
  unfold view_box. destruct (px_box d "Attrition" y) eqn:E; [|done].
  intros _. by apply px_box_inv in E as [_ ?].
Qed.

Lemma view_counts_bar_inv d el : view_counts_bar d = Ok el → has_column d "Attrition" = true.
Proof.
  unfold view_counts_bar. destruct (valueCounts d "Attrition") eqn:E; [|done].
  intros _. by eapply valueCounts_inv.
Qed.

Lemma view_heatmap_inv d el : view_heatmap d = Ok el → numeric_names d ≠ [].
Proof.
  unfold view_heatmap. change (labels (correlationMatrix d)) with (numeric_names d).
  by destruct (numeric_names d).
Qed.

Lemma render_cons_inv v vs d out :
  render (v :: vs) d = (out, None) →
  ∃ el out', body v d = Ok el ∧ render vs d = (out', None).
Proof.
  cbn [render]. destruct (body v d) as [el|]; [|done].
  destruct (render vs d) as [out' x]. intros [= _ ->]. eauto.
Qed.

(** A run through the views that raises nothing had every column the
    views read and a numeric column: a missing one, other than
    [OverTime], ends the run at its first use. *)
Lemma render_views_inv d out :
  render views d = (out, None) → complete d ∧ numeric_names d ≠ [].
Proof.
  unfold views. intros H.
  repeat match type of H with
         | render (_ :: _) _ = _ =>
             let el := fresh "el" in
             let out' := fresh "out" in
             let Hb := fresh "Hb" in
             apply render_cons_inv in H as (el & out' & Hb & H); cbn [body] in Hb
         end.
  split; [|by eapply view_heatmap_inv].
  unfold complete, required_columns. repeat constructor;
    eauto using view_counts_bar_inv, view_grouped_inv, view_histogram_inv, view_box_inv.
Qed.

(** C8 fails for a column other than [OverTime]: without [MaritalStatus]
    the run ends in view 5 with a [KeyError]; views 6 to 20 are not drawn
    and no warning is written. *)
Lemma missing_marital_status_aborts :
  has_column no_marital "MaritalStatus" = false ∧
  script no_marital (no_filter 30 30)
  = ([ subheader "1. Overall Attrition Count";
       markdown "This chart shows how many employees have left vs stayed.";
       chart (bar_chart [(Str "Yes", 1%nat)]);
       subheader "2. Attrition Rate Pie Chart";
       markdown "Shows percentage share of attrition.";
       chart (pie [(Str "Yes", 1%nat)]);
       subheader "3. Correlation Heatmap";
       markdown "Heatmap showing correlations among numerical features.";
       chart (heatmap {| labels := ["Age"]; entries := [[nan]] |});
       subheader "4. Attrition by Gender";
       markdown "Check gender-wise attrition trends.";
       chart (bar_chart_table
                {| ct_index := [Str "Male"]; ct_columns := [Str "Yes"];
                   ct_cells := [[1%nat]] |});
       subheader "5. Attrition by Marital Status";
       markdown "Marital status and attrition correlation." ],
     Some (KeyError "MaritalStatus")).
Proof. split; reflexivity. Qed.

(** C8, amended. For every filtered view that lacks the [OverTime]
    column, has every other column the views read and has a numeric
    column, going through the views raises nothing: the page has the
    figures of the first nineteen views, and the warning in place of view
    20.  No other column is optional: a pass through the views that
    raises nothing had every column the views read, [OverTime] apart, and
    a numeric column. *)
Theorem missing_overtime_skips_one_view d :
  (complete d → numeric_names d ≠ [] → has_column d "OverTime" = false →
   length (drawn d) = 19%nat ∧
   render views d
   = ((page (zip (take 19 views) (drawn d))
         ++ [subheader "20. Overtime vs Attrition";
             warning "OverTime column not found in dataset."])%list, None)) ∧
  (∀ out, render views d = (out, None) → complete d ∧ numeric_names d ≠ []).
Proof.
  split; [|apply render_views_inv].
  intros Hc Hn Ho. split; [done|]. rewrite (render_views _ Hc Hn).
  unfold overtime_element. by rewrite Ho.
Qed.

Lemma missing_overtime_skips_one_view_witness :
  length (drawn no_overtime) = 19%nat ∧
  render views no_overtime
  = ((page (zip (take 19 views) (drawn no_overtime))
        ++ [subheader "20. Overtime vs Attrition";
            warning "OverTime column not found in dataset."])%list, None).
Proof.
  apply (missing_overtime_skips_one_view no_overtime).
  - repeat constructor.
  - discriminate.
  - reflexivity.
Defined.

(** X20. On a table with every column the views read, [OverTime]
    included, and a numeric column, that the sidebar and the filter block
    accept (the three filter columns, no text for an age, some age, and
    no age beyond what the slider holds), the run raises nothing: the
    page has the figures of the first nineteen views and the histogram of
    view 20 (line 137), and no warning. *)
Lemma with_overtime_all_views_draw table spec :
  filterable table → (∃ q, Num q ∈ column table "Age") →
  Forall safe_age (column table "Age") →
  complete table → numeric_names table ≠ [] →
  has_column table "OverTime" = true →
  ∃ view,
    applyFilter table spec = Ok view ∧
    script table spec
    = ((page (zip (take 19 views) (drawn view))
          ++ [subheader "20. Overtime vs Attrition";
              chart (histogram (column view "OverTime") (column view "Attrition") None)])%list,
       None).
Proof.
  intros Hf Hage Hsafe Hc Hn Ho.
  destruct (script_page table spec Hf Hage Hsafe Hc Hn) as (view & Hview & ->).
  exists view. split; [done|]. do 3 f_equal.
  rewrite applyFilter_rows in Hview by done. injection Hview as <-.
  unfold overtime_element.
  change (has_column _ "OverTime") with (has_column table "OverTime"). by rewrite Ho.
Qed.

Lemma with_overtime_all_views_draw_witness :
  ∃ view,
    applyFilter with_overtime (no_filter 30 30) = Ok view ∧
    script with_overtime (no_filter 30 30)
    = ((page (zip (take 19 views) (drawn view))
          ++ [subheader "20. Overtime vs Attrition";
              chart (histogram (column view "OverTime") (column view "Attrition") None)])%list,
       None).
Proof.
  apply (with_overtime_all_views_draw with_overtime (no_filter 30 30)).
  - solve_filterable.
  - exists 30%Q. apply list_elem_of_here.
  - change (Forall safe_age [Num 30]). constructor; [split; by vm_compute|constructor].
  - repeat constructor.
  - discriminate.
  - reflexivity.
Defined.

(** An age above [2 ^ 53 - 1] ends the run in the slider. *)
Example unsafe_age_stops_sidebar :
  script {| columns := staff_columns;
            rows := [ record [("Gender", Str "Male"); ("Department", Str "Sales");
                              ("Age", Num 9007199254740993); ("Attrition", Str "No")] ] |}
         (no_filter 25 45)
  = ([], Some StreamlitAPIException).
Proof. reflexivity. Qed.

(** ** Views without records *)






(** ** The sample table through the other aggregations *)

Example groupedValueCounts_staff :
  groupedValueCounts staff "Gender" "Attrition"
  = Ok {| ct_index := [Str "Female"; Str "Male"];
          ct_columns := [Str "No"; Str "Yes"];
          ct_cells := [[1%nat; 0%nat]; [1%nat; 1%nat]] |}.
Proof. reflexivity. Qed.

Example slider_bounds_staff : slider_bounds staff = Ok (30%Z, 52%Z).
Proof. reflexivity. Qed.

Example selectbox_options_staff :
  selectbox_options staff "Gender" = Ok [Str "All"; Str "Male"; Str "Female"].
Proof. reflexivity. Qed.

Example selectbox_options_mixed_all :
  selectbox_options mixed_all "Gender" = Ok [Str "All"; Str "All"; Str "Male"].
Proof. reflexivity. Qed.

Example missing_gender_column :
  applyFilter nobody (men 18 60) = Ok nobody ∧
  applyFilter {| columns := [("Age", number)]; rows := [] |} (men 18 60)
  = Raise (KeyError "Gender").
Proof. split; reflexivity. Qed.

(** * Further properties of the script *)

(** ** The selection boxes *)

Lemma existsb_same_key_false x seen :
  existsb (same_key x) seen = false ↔ Forall (λ y, same_key x y = false) seen.
Proof.
  induction seen as [|y seen IH]; cbn; [by split|].
  rewrite orb_false_iff, IH, Forall_cons. done.
Qed.

Lemma unique_acc_elem seen l x :
  x ∈ unique_acc seen l → x ∈ l ∧ Forall (λ y, same_key x y = false) seen.
Proof.
  revert seen. induction l as [|x0 l IH]; intros seen; cbn; [by intros ?%elem_of_nil|].
  destruct (existsb (same_key x0) seen) eqn:E.
  - intros [? ?]%IH. split; [by right|done].
  - intros [->|[? Hs]%IH]%elem_of_cons.
    + split; [by left|]. by apply existsb_same_key_false.
    + split; [by right|]. by apply Forall_cons in Hs as [_ ?].
Qed.

Lemma unique_acc_cover seen l x :
  x ∈ l →
  existsb (same_key x) seen = true ∨ ∃ y, y ∈ unique_acc seen l ∧ same_key x y = true.
Proof.
  revert seen. induction l as [|x0 l IH]; intros seen; [by intros ?%elem_of_nil|].
  cbn. destruct (existsb (same_key x0) seen) eqn:E.
  - intros [->|Hx]%elem_of_cons; [by left|]. by apply IH.
  - intros [->|Hx]%elem_of_cons.
    + right. exists x0. split; [by left|apply same_key_refl].
    + destruct (IH (x0 :: seen) Hx) as [Hs|(y & Hy & Hxy)].
      * cbn in Hs. apply orb_true_iff in Hs as [Hs|Hs]; [|by left].
        right. exists x0. split; [by left|done].
      * right. exists y. split; [by right|done].
Qed.

Lemma unique_acc_distinct seen l : distinct_values (unique_acc seen l).
Proof.
  revert seen. induction l as [|x0 l IH]; intros seen; cbn; [done|].
  destruct (existsb (same_key x0) seen); [apply IH|].
  cbn. split; [|apply IH]. apply Forall_forall. intros y [_ Hy]%unique_acc_elem.
  by apply Forall_cons in Hy as [? _].
Qed.

(** X1. The options of a selection box (lines 24 and 25).  On a table
    without the column the box raises [KeyError].  Otherwise the options
    are ["All"] followed by cells of the column; every cell of the column
    has its key among them (a missing cell too), and no two of them are
    the same key. *)
Theorem selectbox_options_spec d c :
  (has_column d c = false → selectbox_options d c = Raise (KeyError c)) ∧
  (has_column d c = true →
   ∃ rest,
     selectbox_options d c = Ok (Str "All" :: rest) ∧
     (∀ v, v ∈ rest → v ∈ column d c) ∧
     (∀ v, v ∈ column d c → ∃ o, o ∈ rest ∧ same_key v o = true) ∧
     distinct_values rest).
Proof.
  unfold selectbox_options, getitem. split; intros ->; [done|].
  exists (unique (column d c)). split_and!; [done| | |].
  - by intros v [? _]%unique_acc_elem.
  - intros v Hv. by destruct (unique_acc_cover [] _ _ Hv) as [?|?].
  - apply unique_acc_distinct.
Qed.

(** ** The age slider *)

Lemma int_mono p q k1 k2 :
  int (Some p) = Ok k1 → int (Some q) = Ok k2 → (p <= q)%Q → (k1 <= k2)%Z.
Proof.
  intros [= <-] [= <-] H. unfold Qle in H.
  rewrite <- (Z.quot_mul_cancel_r (Qnum p) (Zpos (Qden p)) (Zpos (Qden q))) by lia.
  rewrite <- (Z.quot_mul_cancel_r (Qnum q) (Zpos (Qden q)) (Zpos (Qden p))) by lia.
  rewrite (Z.mul_comm (Zpos (Qden q)) (Zpos (Qden p))).
  apply Z.quot_le_mono; lia.
Qed.

(** X2. The ends of the age slider (line 26), on a table whose [Age]
    cells are numbers or missing, with at least one number.  Line 26
    computes both ends, the lower end is at most the upper end, and every
    whole age of the table lies between the two: a record with such an
    age passes the age test of line 34 when the slider is on its full
    range. *)
Theorem slider_bounds_cover table :
  has_column table "Age" = true →
  Forall not_text (column table "Age") →
  (∃ q, Num q ∈ column table "Age") →
  ∃ lo hi,
    slider_bounds table = Ok (lo, hi) ∧
    (lo <= hi)%Z ∧
    ∀ r q z, r ∈ rows table → cell "Age" r = Num q → (q == inject_Z z)%Q →
      (lo <= z <= hi)%Z ∧ age_ok (no_filter lo hi) r = true.
Proof.
  intros Ha Hn Hage.
  destruct (reduce_total Qmin' _ None Hn (or_intror Hage)) as [mn Hmin].
  destruct (reduce_total Qmax' _ None Hn (or_intror Hage)) as [mx Hmax].
  exists (Z.quot (Qnum mn) (Zpos (Qden mn))), (Z.quot (Qnum mx) (Zpos (Qden mx))).
  assert (∀ q, Num q ∈ column table "Age" → (mn <= q)%Q ∧ (q <= mx)%Q) as Hb.
  { intros q Hq. split; [by eapply series_min_le|by eapply series_max_ge]. }
  split_and!.
  - unfold slider_bounds, age_min, age_max, getattr. rewrite (getitem_has _ _ Ha).
    cbn [mbind result_bind]. unfold series_min, series_max. by rewrite Hmin, Hmax.
  - destruct Hage as [q Hq]. destruct (Hb q Hq).
    apply (int_mono mn mx); [done..|]. by apply Qle_trans with q.
  - intros r q z Hr Hc Hz.
    assert (Num q ∈ column table "Age") as Hq.
    { apply list_elem_of_fmap. exists r. by rewrite Hc. }
    destruct (Hb q Hq) as [H1 H2]. rewrite Hz in H1, H2.
    assert (Z.quot (Qnum mn) (Zpos (Qden mn)) <= z <= Z.quot (Qnum mx) (Zpos (Qden mx)))%Z
      as Hzz.
    { split; [by apply (int_le_integer mn)|by apply (int_ge_integer mx)]. }
    split; [done|]. unfold age_ok, ge_bool, le_bool. rewrite Hc. cbn.
    apply andb_true_iff. rewrite !Qle_bool_iff, Hz, <- !Zle_Qle. lia.
Qed.

Lemma slider_bounds_cover_witness :
  ∃ lo hi,
    slider_bounds gappy = Ok (lo, hi) ∧
    (lo <= hi)%Z ∧
    ∀ r q z, r ∈ rows gappy → cell "Age" r = Num q → (q == inject_Z z)%Q →
      (lo <= z <= hi)%Z ∧ age_ok (no_filter lo hi) r = true.
Proof.
  apply (slider_bounds_cover gappy).
  - reflexivity.
  - repeat constructor.
  - exists 30%Q. apply list_elem_of_here.
Defined.





(** ** When the filter block raises *)

Lemma stmt_select_run c sel e :
  (sel ≠ Str "All" → has_column (filtered_df e) c = true) →
  stmt_select c sel e =
    Ok (set_filtered_df e
          {| columns := columns (filtered_df e);
             rows := filter (λ r, sel_ok c sel r = true) (rows (filtered_df e)) |}).
Proof.
  intros Hc. destruct (py_ne sel (Str "All")) eqn:E.
  - apply stmt_select_rows, Hc. by apply py_ne_All.
  - unfold stmt_select, sel_ok. rewrite E, filter_true. by destruct e as [? ? ? ? []].
Qed.

Lemma stmt_select_ok c sel e e' :
  stmt_select c sel e = Ok e' → sel ≠ Str "All" → has_column (filtered_df e) c = true.
Proof.
  intros H Hne. apply py_ne_All in Hne. unfold stmt_select in H. rewrite Hne in H.
  destruct (getitem (filtered_df e) c) eqn:Hg; [by eapply getitem_inv|done].
Qed.

Lemma stmt_age_ok e e' :
  stmt_age e = Ok e' →
  has_column (filtered_df e) "Age" = true ∧
  Forall (λ r, not_text (cell "Age" r)) (rows (filtered_df e)).
Proof.
  unfold stmt_age. intros H.
  destruct (getitem (filtered_df e) "Age") as [col|] eqn:Hg; [|done].
  pose proof (getitem_inv _ _ _ Hg) as Ha. split; [done|].
  rewrite (getitem_has _ _ Ha) in Hg. injection Hg as <-.
  cbn in H. destruct (ge_scalar _ _) eqn:Hge; [|done].
  apply ge_scalar_inv in Hge. unfold column in Hge. rewrite Forall_fmap in Hge. exact Hge.
Qed.

Lemma apply_filters_runnable e :
  (∃ e', apply_filters e = Ok e') ↔
  runnable (df e)
    {| gender := selected_gender e; department := selected_department e;
       age_range := selected_age e |}.
Proof.
  unfold runnable, gender_ok, department_ok. cbn [gender department].
  unfold apply_filters, stmt_copy. cbn [mbind result_bind]. rewrite copy_id.
  cbn [set_filtered_df selected_gender]. split.
  - intros [e' H].
    destruct (stmt_select "Gender" _ _) as [e2|] eqn:H2; cbn [mbind result_bind] in H; [|done].
    pose proof (stmt_select_ok _ _ _ _ H2) as Hg. apply stmt_select_inv in H2 as ->.
    cbn [set_filtered_df selected_department filtered_df columns rows] in *.
    destruct (stmt_select "Department" _ _) as [e3|] eqn:H3;
      cbn [mbind result_bind] in H; [|done].
    pose proof (stmt_select_ok _ _ _ _ H3) as Hd. apply stmt_select_inv in H3 as ->.
    apply stmt_age_ok in H as [Ha Hn].
    cbn [set_filtered_df filtered_df columns rows] in *.
    split_and!; [done..|].
    apply Forall_forall. intros r Hr Hgr Hdr.
    eapply Forall_forall in Hn; [exact Hn|].
    apply list_elem_of_filter. split; [done|]. apply list_elem_of_filter. done.
  - intros (Hg & Hd & Ha & Hn).
    rewrite stmt_select_run by done.
    cbn [mbind result_bind set_filtered_df selected_department filtered_df columns rows].
    rewrite stmt_select_run by done.
    cbn [mbind result_bind set_filtered_df selected_department filtered_df columns rows].
    rewrite stmt_age_rows; [by eexists|done|].
    cbn [set_filtered_df filtered_df rows].
    apply Forall_forall. intros r [Hdr [Hgr Hr]%list_elem_of_filter]%list_elem_of_filter.
    eapply Forall_forall in Hn; [|done]. by apply Hn.
Qed.

Lemma applyFilter_runnable table spec :
  (∃ view, applyFilter table spec = Ok view) ↔ runnable table spec.
Proof.
  unfold applyFilter.
  pose proof (apply_filters_runnable
    {| df := table; selected_gender := gender spec;
       selected_department := department spec; selected_age := age_range spec;
       filtered_df := table |}) as H.
  cbn [df selected_gender selected_department selected_age] in H.
  replace {| gender := gender spec; department := department spec;
             age_range := age_range spec |} with spec in H by by destruct spec.
  rewrite <- H. split.
  - intros [view Hv]. destruct (apply_filters _) as [e'|]; [by eexists|done].
  - intros [e' ->]. by eexists.
Qed.

(** X5. When the filter block (lines 29 to 34) raises.  It returns a
    view exactly when the column of each selection box that is not on
    ["All"] is there, the [Age] column is there, and no record that passes
    the two boxes has text for its age.  A missing column is reported by
    the first statement that reads it: [KeyError] for [Gender] (line 31),
    for [Department] (line 33) once the gender statement has run, and for
    [Age] (line 34) once both have. *)
Theorem applyFilter_raises_iff table spec :
  ((∃ view, applyFilter table spec = Ok view) ↔ runnable table spec) ∧
  (gender spec ≠ Str "All" → has_column table "Gender" = false →
     applyFilter table spec = Raise (KeyError "Gender")) ∧
  ((gender spec ≠ Str "All" → has_column table "Gender" = true) →
   department spec ≠ Str "All" → has_column table "Department" = false →
     applyFilter table spec = Raise (KeyError "Department")) ∧
  ((gender spec ≠ Str "All" → has_column table "Gender" = true) →
   (department spec ≠ Str "All" → has_column table "Department" = true) →
   has_column table "Age" = false →
     applyFilter table spec = Raise (KeyError "Age")).
Proof.
  split; [apply applyFilter_runnable|].
  unfold applyFilter, apply_filters, stmt_copy. cbn [mbind result_bind].
  rewrite copy_id. cbn [set_filtered_df selected_gender df].
  split_and!.
  - intros Hg%py_ne_All Hc. unfold stmt_select. cbn [filtered_df]. rewrite Hg.
    unfold getitem. change (has_column _ "Gender") with (has_column table "Gender").
    by rewrite Hc.
  - intros Hg Hd%py_ne_All Hc. rewrite stmt_select_run by done.
    cbn [mbind result_bind set_filtered_df selected_department filtered_df].
    unfold stmt_select. cbn [filtered_df]. rewrite Hd. unfold getitem.
    change (has_column _ "Department") with (has_column table "Department").
    by rewrite Hc.
  - intros Hg Hd Hc. rewrite stmt_select_run by done.
    cbn [mbind result_bind set_filtered_df selected_department filtered_df].
    rewrite stmt_select_run by done.
    cbn [mbind result_bind set_filtered_df selected_department filtered_df].
    unfold stmt_age, getitem. cbn [filtered_df].
    change (has_column _ "Age") with (has_column table "Age").
    by rewrite Hc.
Qed.

(** ** Filtering twice *)

Lemma filter_none {A} (P : A → Prop) `{∀ x, Decision (P x)} (l : list A) :
  Forall (λ x, ¬ P x) l → filter P l = [].
Proof.
  induction 1 as [|x l Hx _ IH]; [done|]. rewrite filter_cons, IH. by case_decide.
Qed.

Lemma runnable_rows table spec (rs : list (gmap string value)) :
  runnable table spec → (∀ r, r ∈ rs → r ∈ rows table) →
  runnable {| columns := columns table; rows := rs |} spec.
Proof.
  intros (Hg & Hd & Ha & Hn) Hsub. split_and!; [done..|].
  apply Forall_forall. intros r Hr. eapply Forall_forall in Hn; [exact Hn|]. by apply Hsub.
Qed.

Lemma runnable_boxes table spec spec' :
  gender spec' = gender spec → department spec' = department spec →
  runnable table spec → runnable table spec'.
Proof.
  unfold runnable, gender_ok, department_ok. by intros -> ->.
Qed.

(** X6. Filtering a view again with the selections that made it changes
    nothing: the filter block runs on the view and returns it. *)
Theorem applyFilter_idempotent table spec view :
  applyFilter table spec = Ok view → applyFilter view spec = Ok view.
Proof.
  intros Hv.
  assert (runnable table spec) as Hr by (apply applyFilter_runnable; by eexists).
  apply applyFilter_inv in Hv as ->.
  destruct (proj2 (applyFilter_runnable _ spec)
              (runnable_rows table spec
                 (filter (λ r, satisfies spec r = true) (rows table)) Hr
                 (λ r Hin, proj2 (proj1 (list_elem_of_filter _ _ _) Hin)))) as [view' Hv'].
  rewrite Hv'. apply applyFilter_inv in Hv' as ->. cbn [columns rows]. do 2 f_equal.
  apply list_filter_filter_l. done.
Qed.

Lemma applyFilter_idempotent_witness :
  ∃ view, applyFilter staff (men 25 45) = Ok view ∧ applyFilter view (men 25 45) = Ok view.
Proof.
  eexists. split; [reflexivity|].
  apply (applyFilter_idempotent staff (men 25 45)). reflexivity.
Defined.

(** X7. Filtering by one specification and then, on that view, by
    another: the columns are those of the table, the records are those of
    the table that satisfy both, in table order, and filtering in the
    other order gives the same view. *)
Theorem applyFilter_compose table s1 s2 v1 v12 :
  applyFilter table s1 = Ok v1 →
  applyFilter v1 s2 = Ok v12 →
  columns v12 = columns table ∧
  rows v12 = filter (λ r, satisfies s1 r = true ∧ satisfies s2 r = true) (rows table) ∧
  ∀ v2 v21, applyFilter table s2 = Ok v2 → applyFilter v2 s1 = Ok v21 → v21 = v12.
Proof.
  intros ->%applyFilter_inv ->%applyFilter_inv. cbn [columns rows].
  split_and!; [done| |].
  - rewrite list_filter_filter. apply list_filter_iff. tauto.
  - intros v2 v21 ->%applyFilter_inv ->%applyFilter_inv. cbn [columns rows]. f_equal.
    rewrite !list_filter_filter. apply list_filter_iff. tauto.
Qed.

Lemma applyFilter_compose_witness :
  ∃ v1 v12,
    applyFilter staff (men 25 60) = Ok v1 ∧
    applyFilter v1 (no_filter 40 60) = Ok v12 ∧
    columns v12 = columns staff ∧
    rows v12 = filter (λ r, satisfies (men 25 60) r = true
                            ∧ satisfies (no_filter 40 60) r = true) (rows staff) ∧
    ∀ v2 v21, applyFilter staff (no_filter 40 60) = Ok v2 →
              applyFilter v2 (men 25 60) = Ok v21 → v21 = v12.
Proof.
  eexists _, _. split; [reflexivity|]. split; [reflexivity|].
  eapply (applyFilter_compose staff (men 25 60) (no_filter 40 60)); reflexivity.
Defined.

(** X8. With the same two selections, a wider age range keeps more:
    where the filter block runs with the narrower range it runs with the
    wider one, and the narrower view is the wider view with records left
    out. *)
Theorem applyFilter_range_monotone table spec spec' view :
  gender spec' = gender spec →
  department spec' = department spec →
  ((age_range spec').1 <= (age_range spec).1)%Z →
  ((age_range spec).2 <= (age_range spec').2)%Z →
  applyFilter table spec = Ok view →
  ∃ view', applyFilter table spec' = Ok view' ∧ rows view `sublist_of` rows view'.
Proof.
  intros Hg Hd Hlo Hhi Hv.
  assert (runnable table spec) as Hr by (apply applyFilter_runnable; by eexists).
  destruct (proj2 (applyFilter_runnable table spec')
              (runnable_boxes _ _ _ Hg Hd Hr)) as [view' Hv'].
  exists view'. split; [done|].
  apply applyFilter_inv in Hv as ->. apply applyFilter_inv in Hv' as ->. cbn [rows].
  rewrite <- (list_filter_filter_l (λ r, satisfies spec r = true)
                (λ r, satisfies spec' r = true)); [apply sublist_filter|].
  intros r. unfold satisfies, gender_ok, department_ok, age_ok, ge_bool, le_bool.
  rewrite Hg, Hd. destruct (cell "Age" r) as [s|q|]; rewrite ?andb_false_r; try done.
  rewrite !andb_true_iff, !Qle_bool_iff. intros [[? ?] [? ?]]. split_and!; try done.
  - apply Qle_trans with (inject_Z (age_range spec).1); [by rewrite <- Zle_Qle|done].
  - apply Qle_trans with (inject_Z (age_range spec).2); [done|by rewrite <- Zle_Qle].
Qed.

Lemma applyFilter_range_monotone_witness :
  ∃ view,
    applyFilter staff (men 25 45) = Ok view ∧
    ∃ view', applyFilter staff (men 18 60) = Ok view' ∧ rows view `sublist_of` rows view'.
Proof.
  eexists. split; [reflexivity|].
  apply (applyFilter_range_monotone staff (men 25 45) (men 18 60));
    [reflexivity | reflexivity | cbn; lia | cbn; lia | reflexivity].
Defined.

(** X9. A slider whose lower end is above its upper end leaves no
    record in the view. *)
Theorem applyFilter_empty_range table spec view :
  ((age_range spec).2 < (age_range spec).1)%Z →
  applyFilter table spec = Ok view →
  rows view = [].
Proof.
  intros Hlt ->%applyFilter_inv. cbn [rows]. apply filter_none.
  apply Forall_forall. intros r _. unfold satisfies, age_ok, ge_bool, le_bool.
  destruct (cell "Age" r) as [s|q|]; rewrite ?andb_false_r; try done.
  rewrite !andb_true_iff, !Qle_bool_iff. intros [_ [H1 H2]].
  assert (inject_Z (age_range spec).1 <= inject_Z (age_range spec).2)%Q as H
    by by apply Qle_trans with q.
  rewrite <- Zle_Qle in H. lia.
Qed.

Lemma applyFilter_empty_range_witness :
  ∃ view, applyFilter staff (no_filter 45 25) = Ok view ∧ rows view = [].
Proof.
  eexists. split; [reflexivity|].
  apply (applyFilter_empty_range staff (no_filter 45 25)); [cbn; lia | reflexivity].
Defined.

(** ** The order and the keys of the counts *)

Lemma insert_by_ordered {A} (leb : A → A → bool) x l :
  (∀ a b, leb a b = false → leb b a = true) →
  ordered leb l → ordered leb (insert_by leb x l).
Proof.
  intros Htot. induction l as [|y l IH]; [done|].
  intros [Hy Hl]. cbn [insert_by]. destruct (leb x y) eqn:E.
  - done.
  - split; [|by apply IH]. destruct l as [|z l]; cbn [insert_by].
    + by apply Htot.
    + destruct (leb x z); [by apply Htot|done].
Qed.

Lemma sort_by_ordered {A} (leb : A → A → bool) l :
  (∀ a b, leb a b = false → leb b a = true) → ordered leb (sort_by leb l).
Proof.
  intros Htot. unfold sort_by. induction l as [|x l IH]; [done|].
  cbn [foldr]. by apply insert_by_ordered.
Qed.

Lemma ordered_lookup {A} (leb : A → A → bool) l i p q :
  ordered leb l → l !! i = Some p → l !! S i = Some q → leb p q = true.
Proof.
  revert i. induction l as [|x l IH]; intros i; [done|].
  intros [Hx Hl]. destruct i as [|i]; cbn.
  - intros [= ->]. destruct l as [|y l]; [done|]. by intros [= ->].
  - by apply IH.
Qed.

Lemma distinct_keys_lookup acc i j p q :
  distinct_keys acc → acc !! i = Some p → acc !! j = Some q →
  same_key p.1 q.1 = true → i = j.
Proof.
  revert i j. induction acc as [|x acc IH]; intros i j; [done|].
  intros [Hx Hd]. destruct i as [|i], j as [|j]; cbn; try done.
  - intros [= ->] Hq Hs. apply list_elem_of_lookup_2 in Hq.
    eapply Forall_forall in Hx; [|done]. cbn in Hx. rewrite same_key_sym in Hs. congruence.
  - intros Hp [= ->] Hs. apply list_elem_of_lookup_2 in Hp.
    eapply Forall_forall in Hx; [|done]. cbn in Hx. congruence.
  - intros Hp Hq Hs. f_equal. by eapply IH.
Qed.

Lemma insert_by_distinct (leb : value * nat → value * nat → bool) x l :
  Forall (λ q, same_key q.1 x.1 = false) l → distinct_keys l →
  distinct_keys (insert_by leb x l).
Proof.
  induction l as [|y l IH]; [done|].
  intros [Hy Hl]%Forall_cons [Hyl Hd]. cbn [insert_by]. destruct (leb x y).
  - cbn. split_and!; [by constructor|done..].
  - cbn [distinct_keys]. split; [|by apply IH].
    cbn in Hy. rewrite insert_by_Permutation. constructor; [|done].
    by rewrite same_key_sym.
Qed.

Lemma sort_by_distinct (leb : value * nat → value * nat → bool) l :
  distinct_keys l → distinct_keys (sort_by leb l).
Proof.
  unfold sort_by. induction l as [|x l IH]; [done|].
  intros [Hx Hd]. cbn [foldr]. apply insert_by_distinct; [|by apply IH].
  fold (sort_by leb l). by rewrite sort_by_Permutation.
Qed.

Lemma tally_acc_distinct l acc : distinct_keys acc → distinct_keys (foldl count_step acc l).
Proof.
  revert acc. induction l as [|v l IH]; intros acc Hd; [done|].
  cbn [foldl]. apply IH. unfold count_step. destruct (isna v); [done|].
  by apply bump_distinct.
Qed.

Lemma tally_acc_complete l acc v :
  (v ∈ l ∧ isna v = false) ∨ (∃ p, p ∈ acc ∧ same_key v p.1 = true) →
  ∃ p, p ∈ foldl count_step acc l ∧ same_key v p.1 = true.
Proof.
  revert acc. induction l as [|x l IH]; intros acc.
  - intros [[?%elem_of_nil _]|?]; done.
  - intros H. cbn [foldl]. apply IH. unfold count_step.
    destruct H as [[[->|Hv]%elem_of_cons Hna]|(p & Hp & Hs)].
    + right. rewrite Hna. destruct (bump_has x acc) as (k & n & Hin & Hk).
      by exists (k, n).
    + by left.
    + right. destruct (isna x); [by exists p|].
      destruct (bump_keeps x acc p Hp) as [n Hn]. by exists (p.1, n).
Qed.

(** X10. The counts of [value_counts()] (lines 43 and 47): they come
    largest first, no two entries have the same key, and every record
    whose cell is not missing finds the key of its cell among them. *)
Theorem valueCounts_order_and_keys view c counts :
  valueCounts view c = Ok counts →
  (∀ i p q, counts !! i = Some p → counts !! S i = Some q → (q.2 <= p.2)%nat) ∧
  (∀ i j p q, counts !! i = Some p → counts !! j = Some q →
     same_key p.1 q.1 = true → i = j) ∧
  (∀ r, r ∈ rows view → cell c r ≠ NaN →
     ∃ k n, (k, n) ∈ counts ∧ same_key (cell c r) k = true).
Proof.
  intros Hc.
  assert (has_column view c = true) as Hh by by eapply valueCounts_inv.
  rewrite (valueCounts_ok _ _ Hh) in Hc. injection Hc as <-. unfold value_counts.
  split_and!.
  - intros i p q Hp Hq. apply Nat.leb_le.
    refine (ordered_lookup (λ a b, Nat.leb b.2 a.2) _ i p q _ Hp Hq).
    apply sort_by_ordered. intros a b H. apply Nat.leb_le. apply Nat.leb_gt in H. lia.
  - intros i j p q. apply distinct_keys_lookup, sort_by_distinct.
    by apply (tally_acc_distinct _ []).
  - intros r Hr Hna.
    destruct (tally_acc_complete (column view c) [] (cell c r)) as (p & Hp & Hs).
    { left. split; [apply list_elem_of_fmap; by exists r|]. by destruct (cell c r). }
    exists p.1, p.2. split; [|done]. rewrite sort_by_Permutation. by destruct p.
Qed.

Lemma valueCounts_order_and_keys_witness :
  ∃ counts,
    valueCounts staff "Attrition" = Ok counts ∧
    (∀ i p q, counts !! i = Some p → counts !! S i = Some q → (q.2 <= p.2)%nat) ∧
    (∀ i j p q, counts !! i = Some p → counts !! j = Some q →
       same_key p.1 q.1 = true → i = j) ∧
    (∀ r, r ∈ rows staff → cell "Attrition" r ≠ NaN →
       ∃ k n, (k, n) ∈ counts ∧ same_key (cell "Attrition" r) k = true).
Proof.
  eexists. split; [reflexivity|].
  apply (valueCounts_order_and_keys staff "Attrition"). reflexivity.
Defined.

(** ** The table of counts by group *)

Lemma same_key_missing k : isna k = false → same_key NaN k = false.
Proof. by destruct k. Qed.

Lemma occurrences_same_key k k' l :
  same_key k k' = true → occurrences k l = occurrences k' l.
Proof.
  intros Hk. unfold occurrences. f_equal. apply list_filter_iff. intros v. split; intros Hv.
  - by apply (same_key_trans v k k').
  - apply (same_key_trans v k' k); [done|]. by rewrite same_key_sym.
Qed.

Lemma occurrences_zero k l :
  Forall (λ v, same_key v k = false) l → occurrences k l = 0%nat.
Proof.
  intros H. unfold occurrences. rewrite filter_none; [done|].
  eapply Forall_impl; [exact H|]. intros v Hv. cbn in Hv. congruence.
Qed.

(** The count looked up for any key is the number of cells with that
    key, 0 when there is none. *)
Lemma lookup_count_value_counts k l :
  isna k = false → default 0%nat (lookup_count k (value_counts l)) = occurrences k l.
Proof.
  intros Hna. unfold lookup_count.
  destruct (list_find _ (value_counts l)) as [[i [k' n]]|] eqn:E; cbn.
  - apply list_find_Some in E as (Hi & Hs & _). cbn in Hs.
    apply list_elem_of_lookup_2 in Hi. rewrite (value_counts_occurrences _ _ _ Hi).
    by apply occurrences_same_key.
  - apply list_find_None in E. symmetry. apply occurrences_zero.
    apply Forall_forall. intros v Hv. destruct (same_key v k) eqn:Hvk; [|done].
    assert (isna v = false) as Hv'.
    { destruct v; try done. by rewrite same_key_missing in Hvk. }
    destruct (tally_acc_complete l [] v) as (p & Hp & Hs); [by left|].
    eapply Forall_forall in E; [|unfold value_counts; rewrite sort_by_Permutation; exact Hp].
    destruct E. cbn. apply (same_key_trans p.1 v k); [by rewrite same_key_sym|done].
Qed.

Lemma occurrences_group_cells (f h : gmap string value → value) k k' rs :
  occurrences k' (group_cells (f <$> rs) (h <$> rs) k)
  = length (filter (λ r, same_key (f r) k = true ∧ same_key (h r) k' = true) rs).
Proof.
  unfold occurrences, group_cells. induction rs as [|r rs IH]; [done|].
  cbn [fmap list_fmap zip zip_with mbind list_bind fst snd]. rewrite (filter_cons _ r).
  destruct (same_key (f r) k) eqn:E1.
  - cbn [app]. rewrite filter_cons. destruct (same_key (h r) k') eqn:E2.
    + rewrite decide_True by done. rewrite (decide_True (P := _ ∧ _)) by done.
      cbn [length]. f_equal. apply IH.
    + rewrite decide_False by done. rewrite (decide_False (P := _ ∧ _)); [apply IH|].
      by intros [_ ?].
  - cbn [app]. rewrite (decide_False (P := _ ∧ _)); [apply IH|]. by intros [? _].
Qed.

Lemma sorted_keys_elem l k : k ∈ sorted_keys l → k ∈ l ∧ isna k = false.
Proof.
  unfold sorted_keys. rewrite sort_by_Permutation.
  intros [Hk _]%unique_acc_elem. by apply list_elem_of_filter in Hk as [? ?].
Qed.

Lemma sorted_keys_cover l v :
  v ∈ l → isna v = false → ∃ k, k ∈ sorted_keys l ∧ same_key v k = true.
Proof.
  intros Hv Hna.
  destruct (unique_acc_cover [] (filter (λ v, isna v = false) l) v) as [?|(k & Hk & Hs)];
    [by apply list_elem_of_filter|done|].
  exists k. split; [|done]. unfold sorted_keys. by rewrite sort_by_Permutation.
Qed.

Lemma value_leb_total a b : value_leb a b = false → value_leb b a = true.
Proof.
  destruct a as [s|p|], b as [t|q|]; cbn; try done.
  - intros H. destruct (String.leb_total s t) as [?|?]; congruence.
  - intros H. apply Qle_bool_iff. destruct (Qlt_le_dec q p) as [?|Hle].
    + by apply Qlt_le_weak.
    + apply Qle_bool_iff in Hle. congruence.
Qed.

Lemma distinct_values_Permutation l l' :
  l ≡ₚ l' → distinct_values l → distinct_values l'.
Proof.
  induction 1 as [|x l l' Hp IH|x y l|l1 l2 l3 _ IH1 _ IH2]; cbn.
  - done.
  - intros [Hx Hd]. split; [by rewrite <- Hp|by apply IH].
  - intros [[Hxy Hx]%Forall_cons [Hy Hd]]. split_and!; try done.
    constructor; [by rewrite same_key_sym|done].
  - eauto.
Qed.

Lemma distinct_values_lookup l i j x y :
  distinct_values l → l !! i = Some x → l !! j = Some y → same_key x y = true → i = j.
Proof.
  revert i j. induction l as [|z l IH]; intros i j; [done|].
  intros [Hz Hd]. destruct i as [|i], j as [|j]; cbn; try done.
  - intros [= ->] Hq Hs. apply list_elem_of_lookup_2 in Hq.
    eapply Forall_forall in Hz; [|done]. cbn in Hz. rewrite same_key_sym in Hs. congruence.
  - intros Hp [= ->] Hs. apply list_elem_of_lookup_2 in Hp.
    eapply Forall_forall in Hz; [|done]. cbn in Hz. congruence.
  - intros Hp Hq Hs. f_equal. by eapply IH.
Qed.

Lemma sorted_keys_distinct l : distinct_values (sorted_keys l).
Proof.
  unfold sorted_keys. eapply distinct_values_Permutation; [|apply unique_acc_distinct].
  symmetry. apply sort_by_Permutation.
Qed.

Lemma groupedValueCounts_inv_ok d g c ct :
  groupedValueCounts d g c = Ok ct →
  ct = unstack_fillna ((λ k, (k, value_counts (group_cells (column d g) (column d c) k)))
                         <$> sorted_keys (column d g)).
Proof.
  intros H. destruct (groupedValueCounts_inv _ _ _ _ H) as [Hg Hc].
  rewrite (groupedValueCounts_ok _ _ _ Hg Hc) in H. by injection H as <-.
Qed.

Lemma string_compare_trans s1 s2 s3 :
  String.compare s1 s2 ≠ Gt → String.compare s2 s3 ≠ Gt → String.compare s1 s3 ≠ Gt.
Proof.
  revert s2 s3. induction s1 as [|c1 s1 IH]; intros [|c2 s2] [|c3 s3]; cbn; try done.
  unfold Ascii.compare.
  destruct (N.compare_spec (Ascii.N_of_ascii c1) (Ascii.N_of_ascii c2)) as [E12|L12|G12];
    destruct (N.compare_spec (Ascii.N_of_ascii c2) (Ascii.N_of_ascii c3)) as [E23|L23|G23];
    destruct (N.compare_spec (Ascii.N_of_ascii c1) (Ascii.N_of_ascii c3)) as [E13|L13|G13];
    try done; try lia.
  apply IH.
Qed.

Lemma string_leb_trans s1 s2 s3 :
  String.leb s1 s2 = true → String.leb s2 s3 = true → String.leb s1 s3 = true.
Proof.
  unfold String.leb. intros H1 H2.
  pose proof (string_compare_trans s1 s2 s3) as H.
  destruct (String.compare s1 s2), (String.compare s2 s3), (String.compare s1 s3);
    try done; by destruct H.
Qed.

Lemma value_leb_trans a b c :
  value_leb a b = true → value_leb b c = true → value_leb a c = true.
Proof.
  destruct a as [s|p|], b as [t|q|], c as [u|r|]; cbn; try done.
  - apply string_leb_trans.
  - rewrite !Qle_bool_iff. apply Qle_trans.
Qed.

Lemma ordered_head {A} (leb : A → A → bool) x l :
  (∀ a b c, leb a b = true → leb b c = true → leb a c = true) →
  ordered leb (x :: l) → Forall (λ y, leb x y = true) l.
Proof.
  intros Htr. revert x. induction l as [|y l IH]; intros x; [done|].
  intros [Hxy Hl]. constructor; [done|].
  eapply Forall_impl; [apply (IH y Hl)|]. intros z Hz. by eapply Htr.
Qed.

Lemma ordered_cons {A} (leb : A → A → bool) x l :
  Forall (λ y, leb x y = true) l → ordered leb l → ordered leb (x :: l).
Proof. intros Hx Hl. split; [|done]. destruct l; [done|]. by apply Forall_cons in Hx as [? _]. Qed.

Lemma ordered_sublist {A} (leb : A → A → bool) l1 l2 :
  (∀ a b c, leb a b = true → leb b c = true → leb a c = true) →
  l1 `sublist_of` l2 → ordered leb l2 → ordered leb l1.
Proof.
  intros Htr. induction 1 as [|x l1 l2 Hs IH|x l1 l2 Hs IH]; [done|..].
  - intros Ho. pose proof (ordered_head _ _ _ Htr Ho) as Hx. destruct Ho as [_ Ho].
    apply ordered_cons; [|by apply IH].
    apply Forall_forall. intros y Hy.
    exact (proj1 (Forall_forall _ _) Hx y (elem_of_sublist _ _ _ Hy Hs)).
  - intros [_ Ho]. by apply IH.
Qed.

Lemma distinct_values_sublist l1 l2 :
  l1 `sublist_of` l2 → distinct_values l2 → distinct_values l1.
Proof.
  induction 1 as [|x l1 l2 Hs IH|x l1 l2 Hs IH]; [done|..].
  - intros [Hx Hd]. split; [|by apply IH].
    apply Forall_forall. intros y Hy.
    exact (proj1 (Forall_forall _ _) Hx y (elem_of_sublist _ _ _ Hy Hs)).
  - intros [_ Hd]. by apply IH.
Qed.

(** The groups of the series of counts, and the ones that have an entry. *)
Lemma counted_value_counts (k : value) l :
  counted (k, value_counts l) = true ↔ ∃ v, v ∈ l ∧ isna v = false.
Proof.
  unfold counted. cbn [snd]. split.
  - destruct (value_counts l) as [|[k0 n] rest] eqn:E; [done|]. intros _.
    destruct (value_counts_spec l) as [_ Hkeys].
    destruct (Hkeys k0 n) as (_ & Hin & Hna); [rewrite E; by left|].
    exists k0. split; [done|by destruct k0].
  - intros (v & Hv & Hna).
    destruct (tally_acc_complete l [] v) as (p & Hp & _); [by left|].
    assert (p ∈ value_counts l) as Hin by (unfold value_counts; by rewrite sort_by_Permutation).
    destruct (value_counts l); [by apply elem_of_nil in Hin|done].
Qed.

Lemma fst_filter_counted {B} (f : value → list B) (ks : list value) :
  fst <$> filter (λ g, counted g = true) ((λ k, (k, f k)) <$> ks)
  = filter (λ k, counted (k, f k) = true) ks.
Proof.
  induction ks as [|k ks IH]; [done|].
  cbn [fmap list_fmap]. rewrite !filter_cons. cbn [fst snd].
  destruct (decide (counted (k, f k) = true)); cbn; by rewrite IH.
Qed.

Lemma groupedValueCounts_index view g c ct :
  groupedValueCounts view g c = Ok ct →
  ct_index ct
  = filter (λ k, counted (k, value_counts (group_cells (column view g) (column view c) k)) = true)
      (sorted_keys (column view g)).
Proof.
  intros ->%groupedValueCounts_inv_ok. unfold unstack_fillna. cbn [ct_index].
  apply (fst_filter_counted
           (λ k, value_counts (group_cells (column view g) (column view c) k))).
Qed.

Lemma group_cells_inv (f h : gmap string value → value) k (rs : list (gmap string value)) v :
  v ∈ group_cells (f <$> rs) (h <$> rs) k →
  ∃ r, r ∈ rs ∧ h r = v ∧ same_key (f r) k = true.
Proof.
  unfold group_cells. intros ([vg vc] & Hvc & Hz)%list_elem_of_bind.
  cbn in Hvc. destruct (same_key vg k) eqn:E; [|by apply elem_of_nil in Hvc].
  apply list_elem_of_singleton in Hvc as ->.
  apply list_elem_of_lookup in Hz as [n Hz]. apply lookup_zip_Some in Hz as [Ha Hb].
  rewrite list_lookup_fmap in Ha, Hb.
  destruct (rs !! n) as [r|] eqn:Hr; [|done]. cbn in Ha, Hb.
  injection Ha as <-. injection Hb as <-.
  exists r. split_and!; [by eapply list_elem_of_lookup_2|done..].
Qed.

Lemma group_cells_elem (f h : gmap string value → value) k (rs : list (gmap string value)) r :
  r ∈ rs → same_key (f r) k = true → h r ∈ group_cells (f <$> rs) (h <$> rs) k.
Proof.
  intros Hr Hk. unfold group_cells. apply list_elem_of_bind. exists (f r, h r). split.
  - cbn. rewrite Hk. by left.
  - apply list_elem_of_lookup in Hr as [i Hi]. apply list_elem_of_lookup. exists i.
    apply lookup_zip_Some. by rewrite !list_lookup_fmap, Hi.
Qed.

(** A group is in the index exactly when it is the group of a record
    whose counted cell is not missing. *)
Lemma groupedValueCounts_index_elem view g c ct k :
  groupedValueCounts view g c = Ok ct →
  k ∈ ct_index ct ↔
    k ∈ sorted_keys (column view g) ∧
    ∃ r, r ∈ rows view ∧ same_key (cell g r) k = true ∧ isna (cell c r) = false.
Proof.
  intros H. rewrite (groupedValueCounts_index _ _ _ _ H), list_elem_of_filter.
  rewrite counted_value_counts. split.
  - intros [(v & (r & Hr & <- & Hs)%group_cells_inv & Hna) Hk]. split; [done|]. by exists r.
  - intros [Hk (r & Hr & Hs & Hna)]. split; [|done]. exists (cell c r). split; [|done].
    by apply group_cells_elem.
Qed.

(** A column label of the table is a cell of the counted column in a
    record that has a group. *)
Lemma groupedValueCounts_column_keys view g c ct k :
  groupedValueCounts view g c = Ok ct → k ∈ ct_columns ct →
  isna k = false ∧ ∃ r, r ∈ rows view ∧ cell c r = k ∧ isna (cell g r) = false.
Proof.
  intros ->%groupedValueCounts_inv_ok. unfold unstack_fillna. cbn [ct_columns].
  intros [Hk Hna]%sorted_keys_elem. split; [done|].
  apply list_elem_of_bind in Hk as ([kg counts] & Hk & [_ Hin]%list_elem_of_filter).
  cbn in Hk. apply list_elem_of_fmap in Hk as ([k0 n] & -> & Hk0). cbn.
  apply list_elem_of_fmap in Hin as (kg' & [= -> ->] & Hkg).
  apply sorted_keys_elem in Hkg as [_ Hkg].
  destruct (value_counts_spec (group_cells (column view g) (column view c) kg'))
    as [_ Hkeys].
  destruct (Hkeys _ _ Hk0) as (_ & (r & Hr & <- & Hs)%group_cells_inv & _).
  exists r. split_and!; [done..|].
  destruct (cell g r); try done. by rewrite same_key_missing in Hs.
Qed.

(** X11. The cells of the table of counts by group (lines 62 and 66):
    one row for each group of the index, one cell in it for each column
    label, and the cell of group [k] and label [k'] is the number of
    records of the view whose group is [k] and whose counted cell is
    [k'] -- 0, as [fillna(0)] has it, where there is none.  No row is
    all zeros: a group is in the index only with a record that is
    counted. *)
Theorem groupedValueCounts_cells view g c ct :
  groupedValueCounts view g c = Ok ct →
  length (ct_cells ct) = length (ct_index ct) ∧
  (∀ i j k k', ct_index ct !! i = Some k → ct_columns ct !! j = Some k' →
    ∃ row,
      ct_cells ct !! i = Some row ∧
      length row = length (ct_columns ct) ∧
      row !! j = Some (length (filter (λ r, same_key (cell g r) k = true
                                            ∧ same_key (cell c r) k' = true) (rows view)))) ∧
  (∀ k, k ∈ ct_index ct →
     ∃ r, r ∈ rows view ∧ same_key (cell g r) k = true ∧ cell c r ≠ NaN).
Proof.
  intros H. split_and!.
  - apply groupedValueCounts_inv_ok in H as ->. unfold unstack_fillna.
    cbn [ct_index ct_cells]. by rewrite !length_fmap.
  - apply groupedValueCounts_inv_ok in H as ->. unfold unstack_fillna.
    cbn [ct_index ct_columns ct_cells].
    set (s := filter (λ g0, counted g0 = true)
                ((λ k, (k, value_counts (group_cells (column view g) (column view c) k)))
                   <$> sorted_keys (column view g))).
    intros i j k k' Hi Hj.
    rewrite list_lookup_fmap in Hi. destruct (s !! i) as [[k0 counts]|] eqn:Hs; [|done].
    cbn in Hi. injection Hi as ->. rewrite list_lookup_fmap, Hs. cbn.
    eexists. split_and!; [done|by rewrite length_fmap|].
    rewrite list_lookup_fmap, Hj. cbn. f_equal.
    apply list_elem_of_lookup_2 in Hs. unfold s in Hs.
    apply list_elem_of_filter in Hs as [_ Hs].
    apply list_elem_of_fmap in Hs as (k1 & [= -> ->] & _).
    apply list_elem_of_lookup_2, sorted_keys_elem in Hj as [_ Hna].
    etrans; [apply (lookup_count_value_counts _ _ Hna)|]. apply occurrences_group_cells.
  - intros k Hk. apply (groupedValueCounts_index_elem _ _ _ _ _ H) in Hk
      as [_ (r & Hr & Hs & Hna)].
    exists r. split_and!; [done..|]. by destruct (cell c r).
Qed.

Lemma groupedValueCounts_cells_witness :
  ∃ ct,
    groupedValueCounts gappy "Gender" "Attrition" = Ok ct ∧
    length (ct_cells ct) = length (ct_index ct) ∧
    (∀ i j k k', ct_index ct !! i = Some k → ct_columns ct !! j = Some k' →
      ∃ row,
        ct_cells ct !! i = Some row ∧
        length row = length (ct_columns ct) ∧
        row !! j = Some (length (filter (λ r, same_key (cell "Gender" r) k = true
                                              ∧ same_key (cell "Attrition" r) k' = true)
                                   (rows gappy)))) ∧
    (∀ k, k ∈ ct_index ct →
       ∃ r, r ∈ rows gappy ∧ same_key (cell "Gender" r) k = true
            ∧ cell "Attrition" r ≠ NaN).
Proof.
  eexists. split; [reflexivity|].
  apply (groupedValueCounts_cells gappy "Gender" "Attrition"). reflexivity.
Defined.

Lemma sorted_keys_ordered l : ordered value_leb (sorted_keys l).
Proof. apply sort_by_ordered, value_leb_total. Qed.

(** X12. The labels of the table of counts by group (lines 62 and 66):
    the groups of the index and the labels of the columns are both in
    ascending order, without a repeated key and without the missing
    value, and they are cells of their columns.  A group is in the index
    exactly when a record of that group has a counted cell that is not
    missing, and the counted cell of every record that has a group is
    among the column labels. *)
Theorem groupedValueCounts_labels view g c ct :
  groupedValueCounts view g c = Ok ct →
  (ordered value_leb (ct_index ct) ∧ distinct_values (ct_index ct) ∧
   (∀ k, k ∈ ct_index ct →
      k ≠ NaN ∧ k ∈ column view g ∧
      ∃ r, r ∈ rows view ∧ same_key (cell g r) k = true ∧ cell c r ≠ NaN) ∧
   (∀ r, r ∈ rows view → cell g r ≠ NaN → cell c r ≠ NaN →
      ∃ k, k ∈ ct_index ct ∧ same_key (cell g r) k = true)) ∧
  (ordered value_leb (ct_columns ct) ∧ distinct_values (ct_columns ct) ∧
   (∀ k, k ∈ ct_columns ct → k ≠ NaN ∧ k ∈ column view c) ∧
   (∀ r, r ∈ rows view → cell g r ≠ NaN → cell c r ≠ NaN →
      ∃ k, k ∈ ct_columns ct ∧ same_key (cell c r) k = true)).
Proof.
  intros H. pose proof (groupedValueCounts_index _ _ _ _ H) as Hidx.
  pose proof (λ k, groupedValueCounts_index_elem _ _ _ _ k H) as Hin.
  pose proof (λ k, groupedValueCounts_column_keys _ _ _ _ k H) as Hcols.
  assert (∀ v, v ≠ NaN → isna v = false) as Hna by by intros [].
  assert (∀ v, isna v = false → v ≠ NaN) as Hna' by by intros [].
  assert (∀ r, r ∈ rows view → cell g r ≠ NaN → cell c r ≠ NaN →
            ∃ k, k ∈ ct_index ct ∧ same_key (cell g r) k = true) as Hcover.
  { intros r Hr Hg Hc.
    destruct (sorted_keys_cover (column view g) (cell g r)) as (kg & Hkg & Hs);
      [apply list_elem_of_fmap; by exists r|by apply Hna|].
    exists kg. split; [|done]. apply Hin. split; [done|]. exists r. auto. }
  split.
  - split_and!.
    + rewrite Hidx. eapply ordered_sublist;
        [apply value_leb_trans|apply sublist_filter|apply sorted_keys_ordered].
    + rewrite Hidx. eapply distinct_values_sublist;
        [apply sublist_filter|apply sorted_keys_distinct].
    + intros k Hk. apply Hin in Hk as [[Hk Hkna]%sorted_keys_elem (r & Hr & Hs & Hc)].
      split_and!; [by apply Hna'|done|]. exists r. auto.
    + exact Hcover.
  - split_and!.
    + apply groupedValueCounts_inv_ok in H as ->. apply sorted_keys_ordered.
    + apply groupedValueCounts_inv_ok in H as ->. apply sorted_keys_distinct.
    + intros k Hk. destruct (Hcols k Hk) as (? & r & Hr & <- & _).
      split; [by apply Hna'|]. apply list_elem_of_fmap. by exists r.
    + intros r Hr Hg Hc. destruct (Hcover r Hr Hg Hc) as (kg & Hkg & Hs).
      destruct (tally_acc_complete (group_cells (column view g) (column view c) kg) []
                  (cell c r)) as ([k n] & Hk & Hks).
      { left. split; [by apply group_cells_elem|by apply Hna]. }
      assert ((k, n) ∈ value_counts (group_cells (column view g) (column view c) kg))
        as Hkn by (unfold value_counts; by rewrite sort_by_Permutation).
      destruct (value_counts_spec (group_cells (column view g) (column view c) kg))
        as [_ Hkeys].
      destruct (Hkeys _ _ Hkn) as (_ & _ & Hknna).
      apply groupedValueCounts_inv_ok in H. subst ct. unfold unstack_fillna in *.
      cbn [ct_index ct_columns] in *.
      apply list_elem_of_fmap in Hkg as ([kg' counts] & Hfst & Hg').
      cbn in Hfst. subst kg'.
      pose proof Hg' as Hg''. apply list_elem_of_filter in Hg'' as [_ Hg''].
      apply list_elem_of_fmap in Hg'' as (kg2 & [= <- ->] & _).
      destruct (sorted_keys_cover
                  (filter (λ g0, counted g0 = true)
                     ((λ k, (k, value_counts (group_cells (column view g) (column view c) k)))
                        <$> sorted_keys (column view g)) ≫= λ g, fst <$> g.2) k)
        as (k' & Hk' & Hkk'); [|by apply Hna|].
      { apply list_elem_of_bind. eexists (kg, _). split; [|exact Hg'].
        cbn. apply list_elem_of_fmap. by exists (k, n). }
      exists k'. split; [done|]. cbn in Hks. by apply (same_key_trans _ k).
Qed.

Lemma groupedValueCounts_labels_witness :
  ∃ ct,
    groupedValueCounts gappy "Gender" "Attrition" = Ok ct ∧
    (ordered value_leb (ct_index ct) ∧ distinct_values (ct_index ct) ∧
     (∀ k, k ∈ ct_index ct →
        k ≠ NaN ∧ k ∈ column gappy "Gender" ∧
        ∃ r, r ∈ rows gappy ∧ same_key (cell "Gender" r) k = true
             ∧ cell "Attrition" r ≠ NaN) ∧
     (∀ r, r ∈ rows gappy → cell "Gender" r ≠ NaN → cell "Attrition" r ≠ NaN →
        ∃ k, k ∈ ct_index ct ∧ same_key (cell "Gender" r) k = true)) ∧
    (ordered value_leb (ct_columns ct) ∧ distinct_values (ct_columns ct) ∧
     (∀ k, k ∈ ct_columns ct → k ≠ NaN ∧ k ∈ column gappy "Attrition") ∧
     (∀ r, r ∈ rows gappy → cell "Gender" r ≠ NaN → cell "Attrition" r ≠ NaN →
        ∃ k, k ∈ ct_columns ct ∧ same_key (cell "Attrition" r) k = true)).
Proof.
  eexists. split; [reflexivity|].
  apply (groupedValueCounts_labels gappy "Gender" "Attrition"). reflexivity.
Defined.

(** The group with no counted cell has no row. *)
Example groupedValueCounts_gappy :
  groupedValueCounts gappy "Gender" "Attrition"
  = Ok {| ct_index := [Str "Male"]; ct_columns := [Str "Yes"]; ct_cells := [[1%nat]] |}.
Proof. reflexivity. Qed.

(** ** A view that raises *)



(** ** Selections and counts together *)

Lemma same_key_NaN_r v : same_key v NaN = true → v = NaN.
Proof. by destruct v. Qed.

Lemma sel_ok_NaN c r : sel_ok c NaN r = false.
Proof. unfold sel_ok. cbn. by destruct (cell c r). Qed.

(** X15. The missing value as a selection.  A selection box offers the
    missing value whenever its column has a missing cell (lines 24 and
    25), but selecting it gives a view without records, since a missing
    cell does not equal it (lines 31 and 33). *)
Theorem missing_value_option table spec view :
  applyFilter table spec = Ok view →
  (gender spec = NaN ∨ department spec = NaN → rows view = []) ∧
  (∀ c opts r, selectbox_options table c = Ok opts → r ∈ rows table → cell c r = NaN →
     NaN ∈ opts).
Proof.
  intros ->%applyFilter_inv. split.
  - intros Hsel. cbn [rows]. apply filter_none. apply Forall_forall. intros r _.
    unfold satisfies, gender_ok, department_ok.
    destruct Hsel as [-> | ->]; rewrite sel_ok_NaN, ?andb_false_r; done.
  - intros c opts r Hopts Hr Hc.
    destruct (getitem table c) as [col|] eqn:Hg;
      [|unfold selectbox_options in Hopts; by rewrite Hg in Hopts].
    pose proof (getitem_inv _ _ _ Hg) as Hh.
    unfold selectbox_options in Hopts. rewrite (getitem_has _ _ Hh) in Hopts.
    injection Hopts as <-. right.
    destruct (unique_acc_cover [] (column table c) NaN) as [?|(o & Ho & Hs)]; [|done|].
    { apply list_elem_of_fmap. exists r. by rewrite Hc. }
    by destruct o.
Qed.

Lemma missing_value_option_witness :
  ∃ view,
    applyFilter gappy (missing_gender 25 45) = Ok view ∧
    (gender (missing_gender 25 45) = NaN ∨ department (missing_gender 25 45) = NaN →
       rows view = []) ∧
    (∀ c opts r, selectbox_options gappy c = Ok opts → r ∈ rows gappy → cell c r = NaN →
       NaN ∈ opts).
Proof.
  eexists. split; [reflexivity|].
  apply (missing_value_option gappy (missing_gender 25 45)). reflexivity.
Defined.

Lemma occurrences_sublist k (l1 l2 : list (gmap string value)) (f : gmap string value → value) :
  l1 `sublist_of` l2 →
  (length (filter (λ r, same_key (f r) k = true) l1)
   <= length (filter (λ r, same_key (f r) k = true) l2))%nat.
Proof.
  induction 1 as [|x l1 l2 _ IH|x l1 l2 _ IH]; [done|..]; rewrite !filter_cons.
  - case_decide; cbn; lia.
  - case_decide; cbn; lia.
Qed.

(** X16. Filtering never raises a count: every entry of the counts of a
    column in the filtered view has an entry of the same key in the counts
    of that column in the whole table, with a count at least as large. *)
Theorem filter_never_raises_a_count table spec view c counts k n :
  applyFilter table spec = Ok view →
  valueCounts view c = Ok counts →
  (k, n) ∈ counts →
  ∃ all_counts k' m,
    valueCounts table c = Ok all_counts ∧
    (k', m) ∈ all_counts ∧ same_key k k' = true ∧ (n <= m)%nat.
Proof.
  intros Hv Hc Hin.
  pose proof Hv as Hcols. apply applyFilter_inv in Hcols.
  assert (has_column view c = true) as Hh by by eapply valueCounts_inv.
  assert (has_column table c = true) as Hh' by by rewrite Hcols in Hh.
  rewrite (valueCounts_ok _ _ Hh) in Hc. injection Hc as <-.
  exists (value_counts (column table c)).
  destruct (value_counts_spec (column view c)) as [_ Hkeys].
  destruct (Hkeys _ _ Hin) as (Hn & Hk & Hna).
  apply list_elem_of_fmap in Hk as (r & -> & Hr).
  assert (r ∈ rows table) as Hr'.
  { rewrite Hcols in Hr. cbn in Hr. by apply list_elem_of_filter in Hr as [_ ?]. }
  destruct (tally_acc_complete (column table c) [] (cell c r)) as ([k' m] & Hp & Hs).
  { left. split; [apply list_elem_of_fmap; by exists r|]. by destruct (cell c r). }
  assert ((k', m) ∈ value_counts (column table c)) as Hin'
    by (unfold value_counts; by rewrite sort_by_Permutation).
  exists k', m. split_and!; [by apply valueCounts_ok|done..|].
  rewrite (value_counts_occurrences _ _ _ Hin), (value_counts_occurrences _ _ _ Hin').
  rewrite <- (occurrences_same_key _ _ _ Hs). unfold occurrences, column.
  rewrite !(length_filter_fmap_true (cell c) (λ v, same_key v (cell c r))).
  apply occurrences_sublist. rewrite Hcols. cbn. apply sublist_filter.
Qed.

Lemma filter_never_raises_a_count_witness :
  ∃ view counts,
    applyFilter staff (men 25 45) = Ok view ∧
    valueCounts view "Attrition" = Ok counts ∧
    (Str "Yes", 1%nat) ∈ counts ∧
    ∃ all_counts k' m,
      valueCounts staff "Attrition" = Ok all_counts ∧
      (k', m) ∈ all_counts ∧ same_key (Str "Yes") k' = true ∧ (1 <= m)%nat.
Proof.
  eexists _, _. split; [reflexivity|]. split; [reflexivity|].
  split; [vm_compute; apply list_elem_of_here|].
  eapply (filter_never_raises_a_count staff (men 25 45) _ "Attrition" _ (Str "Yes") 1%nat);
    [reflexivity | reflexivity | vm_compute; apply list_elem_of_here].
Defined.

Lemma py_eq_same_key a b : py_eq a b = true → same_key a b = true.
Proof. by destruct a, b. Qed.

(** X17. With a gender selected, view 4 (line 62) has at most one
    group, and the group it has is the selected gender. *)
Theorem selected_gender_one_group table spec view ct :
  applyFilter table spec = Ok view →
  gender spec ≠ Str "All" →
  groupedValueCounts view "Gender" "Attrition" = Ok ct →
  (length (ct_index ct) <= 1)%nat ∧
  ∀ k, k ∈ ct_index ct → py_eq k (gender spec) = true.
Proof.
  intros Hv Hg Hct. rewrite (groupedValueCounts_index _ _ _ _ Hct). clear Hct.
  set (index := filter _ (sorted_keys (column view "Gender"))).
  assert (index `sublist_of` sorted_keys (column view "Gender")) as Hsub
    by apply sublist_filter.
  assert (∀ k, k ∈ index → py_eq k (gender spec) = true) as Hk.
  { intros k Hk. apply (elem_of_sublist _ _ _ Hk) in Hsub.
    apply sorted_keys_elem in Hsub as [Hin _].
    apply list_elem_of_fmap in Hin as (r & -> & Hr).
    apply applyFilter_inv in Hv as ->. cbn in Hr.
    apply list_elem_of_filter in Hr as [Hs _]. unfold satisfies in Hs.
    apply andb_true_iff in Hs as [[Hs _]%andb_true_iff _].
    unfold gender_ok, sel_ok in Hs. apply py_ne_All in Hg. by rewrite Hg in Hs. }
  split; [|done].
  pose proof (distinct_values_sublist _ _ Hsub (sorted_keys_distinct _)) as Hd.
  destruct index as [|k1 [|k2 l]]; cbn; [lia..|].
  assert (0 = 1)%nat; [|done].
  apply (distinct_values_lookup _ 0 1 k1 k2 Hd); [done..|].
  apply (same_key_trans k1 (gender spec) k2).
  - apply py_eq_same_key, Hk. by left.
  - rewrite same_key_sym. apply py_eq_same_key, Hk. right. by left.
Qed.

Lemma selected_gender_one_group_witness :
  ∃ view ct,
    applyFilter staff (men 25 60) = Ok view ∧
    groupedValueCounts view "Gender" "Attrition" = Ok ct ∧
    (length (ct_index ct) <= 1)%nat ∧
    ∀ k, k ∈ ct_index ct → py_eq k (gender (men 25 60)) = true.
Proof.
  eexists _, _. split; [reflexivity|]. split; [reflexivity|].
  eapply (selected_gender_one_group staff (men 25 60)); [reflexivity | discriminate | reflexivity].
Defined.
